(** * impl-trait-for-tuples: the semi-automatic tuple implementation generator

    A shallow embedding of [src/src/semi_automatic.rs], [src/src/utils.rs] and
    the entry point [impl_for_tuples_impl] of [src/src/lib.rs].

    The syntax trees of [syn] are modelled by a small subset of its types.
    The parser and the printer of the host grammar are black boxes (see the
    spec, section 1): the token stream printed from a statement [s] is the
    single token [TkStmt s], and [Block::parse_within] reads such tokens back.
    The spans of diagnostics are abstracted to one number per macro
    invocation / item. *)

From Stdlib Require Import String List Arith NArith Bool Lia.
From Stdlib Require Import DecimalString.
From Stdlib Require Import Permutation.
From Stdlib Require DecimalNat.
Import ListNotations.

Scheme All for list.
Scheme All for option.

Abbreviation Ident := string (only parsing).

(** [syn::Path]: a leading [::] and the segments, each an identifier with
    its [PathArguments].  Angle-bracketed arguments are modelled for type
    arguments that are plain paths themselves ([Tuple<u32>], [Vec<a::B>]);
    lifetimes, constants, bindings, parenthesized ([Fn(A) -> B]) and nested
    arguments are not. *)
Record ArgPath := MkArgPath { arg_leading_colon : bool; arg_segments : list Ident }.

Inductive PathArguments :=
| PANone
| PAAngleBracketed (args : list ArgPath).

Record PathSegment := MkSegment { seg_ident : Ident; arguments : PathArguments }.

Record Path := MkPath { leading_colon : bool; segments : list PathSegment }.

(** [syn::Member] *)
Inductive Member :=
| Named (i : Ident)
| Unnamed (n : nat).

Inductive Delimiter := Paren | Bracket | Brace.

(** Token streams, statements, expressions, types and macro invocations. *)
Inductive Token :=
| TkIdent (i : Ident)
| TkPunct (p : string)
| TkLit (l : string)
| TkGroup (d : Delimiter) (ts : list Token)
| TkStmt (s : Stmt)
with Stmt :=
| SLocal (pat : Ident) (init : option Expr)
| SExpr (e : Expr)
| SSemi (e : Expr)
with Expr :=
| EPath (p : Path)
| ECall (f : Expr) (args : list Expr)
| EMethodCall (receiver : Expr) (method : Ident) (turbofish : list Ty) (args : list Expr)
| EField (base : Expr) (member : Member)
| ETuple (elems : list Expr)
| ETry (e : Expr)
| EBlock (stmts : list Stmt)
| ELit (l : string)
| EMacro (m : Macro)
| EVerbatim (ts : list Token)
with Ty :=
| TyPath (p : Path)
| TyTuple (elems : list Ty)
| TyMacro (m : Macro)
| TyVerbatim (ts : list Token)
with Macro :=
| MkMacro (path : Path) (tokens : list Token) (span : nat).

Definition mac_path (m : Macro) : Path := let 'MkMacro p _ _ := m in p.
Definition mac_tokens (m : Macro) : list Token := let 'MkMacro _ t _ := m in t.
Definition mac_span (m : Macro) : nat := let 'MkMacro _ _ s := m in s.

(** [Path::get_ident] (no leading [::], one segment, no arguments) and
    [Path::is_ident]. *)
Definition get_ident (p : Path) : option Ident :=
  match leading_colon p, segments p with
  | false, [MkSegment i PANone] => Some i
  | _, _ => None
  end.

Definition is_ident (p : Path) (x : Ident) : bool :=
  match get_ident p with
  | Some i => String.eqb i x
  | None => false
  end.

Definition ident_path (i : Ident) : Path := MkPath false [MkSegment i PANone].

(** A path of segments without arguments. *)
Definition plain_path (lc : bool) (ids : list Ident) : Path :=
  MkPath lc (map (fun i => MkSegment i PANone) ids).

(** Diagnostics: [syn::Error] holds a list of messages; [Error::combine]
    appends the messages of the other error. *)
Definition Diag := (nat * string)%type.
Definition Error := list Diag.
Definition error_new (span : nat) (msg : string) : Error := [(span, msg)].
Definition combine (e n : Error) : Error := e ++ n.

Inductive Result (A : Type) :=
| Ok (a : A)
| Err (e : Error).
Arguments Ok {A} a.
Arguments Err {A} e.

(** ** [ReplaceTuplePlaceholder] *)

Record ReplaceTuplePlaceholder := {
  search : Ident;
  replace : Ident;
  use_self : bool;
  index : nat
}.

Section Replace.
Variable rp : ReplaceTuplePlaceholder.

(** [fold_ident] *)
Definition rp_ident (i : Ident) : Ident :=
  if String.eqb i (search rp) then replace rp else i.

(** [fold_path]: every segment identifier, also in the generic arguments. *)
Definition rp_arg_path (a : ArgPath) : ArgPath :=
  MkArgPath (arg_leading_colon a) (map rp_ident (arg_segments a)).

Definition rp_arguments (a : PathArguments) : PathArguments :=
  match a with
  | PANone => PANone
  | PAAngleBracketed args => PAAngleBracketed (map rp_arg_path args)
  end.

Definition rp_segment (s : PathSegment) : PathSegment :=
  MkSegment (rp_ident (seg_ident s)) (rp_arguments (arguments s)).

Definition rp_path (p : Path) : Path :=
  MkPath (leading_colon p) (map rp_segment (segments p)).

Definition rp_member (m : Member) : Member :=
  match m with
  | Named i => Named (rp_ident i)
  | Unnamed n => Unnamed n
  end.

(** The receiver [self.#index]. *)
Definition self_index : Expr := EField (EPath (ident_path "self"%string)) (Unnamed (index rp)).

Definition rp_macro (m : Macro) : Macro :=
  match m with
  | MkMacro p ts sp => MkMacro (rp_path p) ts sp
  end.

Fixpoint rp_ty (t : Ty) : Ty :=
  match t with
  | TyPath p => TyPath (rp_path p)
  | TyTuple ts => TyTuple (map rp_ty ts)
  | TyMacro m => TyMacro (rp_macro m)
  | TyVerbatim ts => TyVerbatim ts
  end.

(** [fold_expr] (overridden), with the default folds of [syn] for every
    other node.  Token streams are never entered. *)
Fixpoint rp_expr (e : Expr) : Expr :=
  match e with
  | EMethodCall recv m tf args =>
      let folded := EMethodCall (rp_expr recv) (rp_ident m) (map rp_ty tf) (map rp_expr args) in
      if use_self rp then
        match recv with
        | EPath p => if is_ident p (search rp) then EMethodCall self_index m tf args else folded
        | _ => folded
        end
      else folded
  | EPath p => EPath (rp_path p)
  | ECall f args => ECall (rp_expr f) (map rp_expr args)
  | EField b mem => EField (rp_expr b) (rp_member mem)
  | ETuple es => ETuple (map rp_expr es)
  | ETry e => ETry (rp_expr e)
  | EBlock ss => EBlock (map rp_stmt ss)
  | ELit l => ELit l
  | EMacro m => EMacro (rp_macro m)
  | EVerbatim ts => EVerbatim ts
  end
with rp_stmt (s : Stmt) : Stmt :=
  match s with
  | SLocal pat init => SLocal (rp_ident pat) (option_map rp_expr init)
  | SExpr e => SExpr (rp_expr e)
  | SSemi e => SSemi (rp_expr e)
  end.
End Replace.

(** [ReplaceTuplePlaceholder::replace_ident_in_stmt] *)
Definition replace_ident_in_stmt (search replace : Ident) (use_self : bool) (index : nat)
    (stmt : Stmt) : Stmt :=
  rp_stmt {| search := search; replace := replace; use_self := use_self; index := index |} stmt.

(** ** [TupleRepetition] and its expansion *)

Record TupleRepetition := {
  stmts : list Stmt;
  comma_token : bool
}.

(** The loop of [TupleRepetition::expand], from position [i] on. *)
Fixpoint expand_from (r : TupleRepetition) (ph : Ident) (use_self : bool)
    (i : nat) (tuples : list Ident) : list Token :=
  match tuples with
  | [] => []
  | tuple :: rest =>
      map (fun s => TkStmt (replace_ident_in_stmt ph tuple use_self i s)) (stmts r)
      ++ (if comma_token r then [TkPunct ","] else [])
      ++ expand_from r ph use_self (S i) rest
  end.

(** [TupleRepetition::expand] *)
Definition rep_expand (r : TupleRepetition) (ph : Ident) (tuples : list Ident)
    (use_self : bool) : list Token :=
  expand_from r ph use_self 0 tuples.

(** ** Parsing the [for_tuples!] body *)

(** [ForTuplesMacro] (the fixed tokens [type], [=], the parentheses and [;]
    carry no information and are regenerated by [expand]). *)
Inductive ForTuplesMacro :=
| FTItem (ident : Ident) (tuple_repetition : TupleRepetition)
| FTStmtParenthesized (tuple_repetition : TupleRepetition)
| FTStmt (tuple_repetition : TupleRepetition).

Definition bind {A B} (r : Result A) (k : A -> Result B) : Result B :=
  match r with
  | Ok a => k a
  | Err e => Err e
  end.

Notation "'let*' x ':=' r 'in' k" := (bind r (fun x => k))
  (at level 200, x pattern, r at level 100, k at level 200).

Definition is_punct (p : string) (t : Token) : bool :=
  match t with
  | TkPunct q => String.eqb q p
  | _ => false
  end.

(** The names [syn] 1 refuses as an [Ident] ([accept_as_ident]); the crate
    uses [syn] 1 ([ImplItemMethod]). *)
Definition rust_keywords : list string :=
  ["_"; "abstract"; "as"; "become"; "box"; "break"; "const"; "continue";
   "crate"; "do"; "else"; "enum"; "extern"; "false"; "final"; "fn"; "for";
   "if"; "impl"; "in"; "let"; "loop"; "macro"; "match"; "mod"; "move"; "mut";
   "override"; "priv"; "pub"; "ref"; "return"; "Self"; "self"; "static";
   "struct"; "super"; "trait"; "true"; "type"; "typeof"; "unsafe"; "unsized";
   "use"; "virtual"; "where"; "while"; "yield"]%string.

Definition is_keyword (i : Ident) : bool := existsb (String.eqb i) rust_keywords.

(** [expr::requires_terminator]: of the modelled expressions only a block
    may end a statement without [;] when more statements follow. *)
Definition requires_terminator (e : Expr) : bool :=
  match e with
  | EBlock _ => false
  | _ => true
  end.

Section Parse.
(** Span of the macro invocation being parsed. *)
Variable sp : nat.

Definition perr {A} (msg : string) : Result A := Err (error_new sp msg).

(** [Block::parse_within], with the statement parser a black box of the
    host grammar: the tokens printed from statements are read back as those
    statements, but an expression statement without [;] that is not the
    last one must be block-like ([expr::requires_terminator]), else the
    parse fails with "unexpected token". *)
Fixpoint parse_within (ts : list Token) : Result (list Stmt) :=
  match ts with
  | [] => Ok []
  | TkStmt s :: rest =>
      match s, rest with
      | SExpr e, _ :: _ =>
          if requires_terminator e then perr "unexpected token"
          else let* ss := parse_within rest in Ok (s :: ss)
      | _, _ => let* ss := parse_within rest in Ok (s :: ss)
      end
  | _ :: _ => perr "expected statement"
  end.

(** [input.parse::<Token![p]>()] *)
Definition expect_punct (p : string) (ts : list Token) : Result (list Token) :=
  match ts with
  | t :: rest => if is_punct p t then Ok rest else perr ("expected `" ++ p ++ "`")
  | [] => perr ("expected `" ++ p ++ "`")
  end.

(** [parenthesized!(content in input)]: the content and the rest. *)
Definition parenthesized (ts : list Token) : Result (list Token * list Token) :=
  match ts with
  | TkGroup Paren content :: rest => Ok (content, rest)
  | _ => perr "expected parentheses"
  end.

(** [input.parse::<Ident>()]: keywords are not identifiers. *)
Definition parse_ident (ts : list Token) : Result (Ident * list Token) :=
  match ts with
  | TkIdent i :: rest => if is_keyword i then perr "expected identifier" else Ok (i, rest)
  | _ => perr "expected identifier"
  end.

(** [Option<Token![,]>] *)
Definition parse_opt_comma (ts : list Token) : bool * list Token :=
  match ts with
  | t :: rest => if is_punct "," t then (true, rest) else (false, ts)
  | [] => (false, [])
  end.

(** [TupleRepetition::parse] *)
Definition parse_tuple_repetition (ts : list Token) : Result (TupleRepetition * list Token) :=
  let* ts := expect_punct "#" ts in
  let* (content, ts) := parenthesized ts in
  let* ss := parse_within content in
  let '(comma, ts) := parse_opt_comma ts in
  let* ts := expect_punct "*" ts in
  Ok ({| stmts := ss; comma_token := comma |}, ts).

Definition lookahead_error {A} (ts : list Token) : Result A :=
  match ts with
  | [] => perr "unexpected end of input, expected one of: `type`, parentheses, `#`"
  | _ => perr "expected one of: `type`, parentheses, `#`"
  end.

(** [ForTuplesMacro::parse].  The boolean records tokens left over inside
    a parenthesized buffer, reported by [syn] as an unexpected token once
    the parse has finished. *)
Definition parse_for_tuples (ts : list Token)
    : Result (ForTuplesMacro * bool * list Token) :=
  match ts with
  | TkIdent kw :: rest =>
      if String.eqb kw "type" then
        let* (ident, ts) := parse_ident rest in
        let* ts := expect_punct "=" ts in
        let* (content, ts) := parenthesized ts in
        let* (rep, leftover) := parse_tuple_repetition content in
        let* ts := expect_punct ";" ts in
        Ok (FTItem ident rep, negb (List.forallb (fun _ => false) leftover), ts)
      else lookahead_error ts
  | TkGroup Paren content :: rest =>
      let* (rep, leftover) := parse_tuple_repetition content in
      Ok (FTStmtParenthesized rep, negb (List.forallb (fun _ => false) leftover), rest)
  | t :: _ =>
      if is_punct "#" t then
        let* (rep, ts) := parse_tuple_repetition ts in
        Ok (FTStmt rep, false, ts)
      else lookahead_error ts
  | [] => lookahead_error ts
  end.

(** [syn::parse2]: the whole body must be consumed. *)
Definition parse2_for_tuples (ts : list Token) : Result ForTuplesMacro :=
  let* (ft, unexpected, rest) := parse_for_tuples ts in
  if unexpected then perr "unexpected token"
  else match rest with
       | [] => Ok ft
       | _ :: _ => perr "unexpected token"
       end.
End Parse.

(** [ForTuplesMacro::try_from] *)
Definition try_from (m : Macro) : Result (option ForTuplesMacro) :=
  if negb (is_ident (mac_path m) "for_tuples") then Ok None
  else let* ft := parse2_for_tuples (mac_span m) (mac_tokens m) in Ok (Some ft).

(** [ForTuplesMacro::expand] *)
Definition ft_expand (ft : ForTuplesMacro) (ph : Ident) (tuples : list Ident)
    (use_self : bool) : list Token :=
  match ft with
  | FTItem ident rep =>
      [TkIdent "type"; TkIdent ident; TkPunct "=";
       TkGroup Paren (rep_expand rep ph tuples use_self); TkPunct ";"]%string
  | FTStmtParenthesized rep => [TkGroup Paren (rep_expand rep ph tuples use_self)]
  | FTStmt rep => rep_expand rep ph tuples use_self
  end.

(** ** Trait implementation templates *)

(** [syn::FnArg]: a [self] receiver or a typed argument. *)
Inductive FnArg :=
| Receiver
| Typed (pat : Ident) (ty : Ty).

Record Signature := {
  sig_ident : Ident;
  sig_inputs : list FnArg;
  sig_output : option Ty
}.

(** [syn::ImplItem] (methods, associated types, macros, verbatim tokens). *)
Inductive ImplItem :=
| IIMethod (sig : Signature) (block : list Stmt)
| IIType (name : Ident) (ty : Ty)
| IIMacro (m : Macro)
| IIVerbatim (ts : list Token).

Inductive GenericParam :=
| GPType (name : Ident) (bounds : list Path)
| GPLifetime (name : Ident)
| GPConst (name : Ident) (ty : Ty).

Record WherePredicate := WP { bounded_ty : Ty; pred_bounds : list Path }.

Record Generics := {
  params : list GenericParam;
  where_clause : option (list WherePredicate)
}.

(** [syn::ItemImpl]; [impl_span] and [self_ty_span] are the spans used by
    its diagnostics. *)
Record ItemImpl := {
  impl_attrs : list string;
  impl_generics : Generics;
  impl_trait : option Path;
  self_ty : Ty;
  items : list ImplItem;
  impl_span : nat;
  self_ty_span : nat
}.

Definition set_generics (t : ItemImpl) (g : Generics) : ItemImpl :=
  {| impl_attrs := impl_attrs t; impl_generics := g; impl_trait := impl_trait t;
     self_ty := self_ty t; items := items t; impl_span := impl_span t;
     self_ty_span := self_ty_span t |}.

Definition set_self_ty_attrs (t : ItemImpl) (ty : Ty) (attrs : list string) : ItemImpl :=
  {| impl_attrs := attrs; impl_generics := impl_generics t; impl_trait := impl_trait t;
     self_ty := ty; items := items t; impl_span := impl_span t;
     self_ty_span := self_ty_span t |}.

(** ** [ToTupleImplementation]

    The folder's [errors] vector is a writer: each fold returns the
    rewritten node and the errors pushed while folding it, in traversal
    order.  [has_self_parameter] is set for a method body and restored
    after it, so it is passed down as an argument. *)

Fixpoint map_w {A} (f : A -> A * list Error) (l : list A) : list A * list Error :=
  match l with
  | [] => ([], [])
  | x :: r =>
      let (y, e1) := f x in
      let (ys, e2) := map_w f r in
      (y :: ys, e1 ++ e2)
  end.

Definition option_w {A} (f : A -> A * list Error) (o : option A) : option A * list Error :=
  match o with
  | Some x => let (y, e) := f x in (Some y, e)
  | None => (None, [])
  end.

Section ToTuple.
(** [tuples] and [tuple_placeholder_ident] *)
Variable tuples : list Ident.
Variable ph : Ident.

(** [fold_type] (overridden) *)
Fixpoint to_ty (t : Ty) : Ty * list Error :=
  match t with
  | TyMacro m =>
      match try_from m with
      | Ok (Some ft) => (TyVerbatim (ft_expand ft ph tuples false), [])
      | Ok None => (TyMacro m, [])
      | Err e => (TyVerbatim [], [e])
      end
  | TyPath p => (TyPath p, [])
  | TyTuple ts => let (ts', es) := map_w to_ty ts in (TyTuple ts', es)
  | TyVerbatim ts => (TyVerbatim ts, [])
  end.

(** The [Stmt::Expr] / [Stmt::Semi] case of [fold_stmt]; [folded] is the
    default fold of [e], used when [e] is not a macro. *)
Definition stmt_expr_case (hs : bool) (e : Expr) (folded : Expr * list Error)
    (trailing_semi : bool) : Stmt * list Error :=
  let restore := fun e' => if trailing_semi then SSemi e' else SExpr e' in
  match e with
  | EMacro m =>
      match try_from m with
      | Ok (Some ft) => (SExpr (EVerbatim (ft_expand ft ph tuples hs)), [])
      | Ok None => (restore (EMacro m), [])
      | Err err => (restore (EVerbatim []), [err])
      end
  | _ => let (e', es) := folded in (restore e', es)
  end.

(** The default [fold_expr], and [fold_stmt] (overridden); [hs] is
    [has_self_parameter]. *)
Fixpoint to_expr (hs : bool) (e : Expr) : Expr * list Error :=
  match e with
  | EPath p => (EPath p, [])
  | ECall f args =>
      let (f', e1) := to_expr hs f in
      let (args', e2) := map_w (to_expr hs) args in
      (ECall f' args', e1 ++ e2)
  | EMethodCall r m tf args =>
      let (r', e1) := to_expr hs r in
      let (tf', e2) := map_w to_ty tf in
      let (args', e3) := map_w (to_expr hs) args in
      (EMethodCall r' m tf' args', e1 ++ e2 ++ e3)
  | EField b mem => let (b', es) := to_expr hs b in (EField b' mem, es)
  | ETuple es => let (es', errs) := map_w (to_expr hs) es in (ETuple es', errs)
  | ETry e => let (e', es) := to_expr hs e in (ETry e', es)
  | EBlock ss => let (ss', es) := map_w (to_stmt hs) ss in (EBlock ss', es)
  | ELit l => (ELit l, [])
  | EMacro m => (EMacro m, [])
  | EVerbatim ts => (EVerbatim ts, [])
  end
with to_stmt (hs : bool) (s : Stmt) : Stmt * list Error :=
  match s with
  | SLocal pat init => let (init', es) := option_w (to_expr hs) init in (SLocal pat init', es)
  | SExpr e => stmt_expr_case hs e (to_expr hs e) false
  | SSemi e => stmt_expr_case hs e (to_expr hs e) true
  end.

Definition to_fn_arg (a : FnArg) : FnArg * list Error :=
  match a with
  | Receiver => (Receiver, [])
  | Typed pat ty => let (ty', es) := to_ty ty in (Typed pat ty', es)
  end.

(** [fold_signature] *)
Definition to_signature (sg : Signature) : Signature * list Error :=
  let (inputs, e1) := map_w to_fn_arg (sig_inputs sg) in
  let (output, e2) := option_w to_ty (sig_output sg) in
  ({| sig_ident := sig_ident sg; sig_inputs := inputs; sig_output := output |}, e1 ++ e2).

(** The [has_self] test of [fold_impl_item_method]. *)
Definition has_receiver (sg : Signature) : bool :=
  match sig_inputs sg with
  | Receiver :: _ => true
  | _ => false
  end.

(** [fold_impl_item] (overridden) and [fold_impl_item_method] (overridden). *)
Definition to_impl_item (i : ImplItem) : ImplItem * list Error :=
  match i with
  | IIMacro m =>
      match try_from m with
      | Ok (Some ft) => (IIVerbatim (ft_expand ft ph tuples false), [])
      | Ok None => (IIMacro m, [])
      | Err e => (IIVerbatim [], [e])
      end
  | IIMethod sg block =>
      let has_self := has_receiver sg in
      let (sg', e1) := to_signature sg in
      let (block', e2) := map_w (to_stmt has_self) block in
      (IIMethod sg' block', e1 ++ e2)
  | IIType name ty => let (ty', es) := to_ty ty in (IIType name ty', es)
  | IIVerbatim ts => (IIVerbatim ts, [])
  end.

Definition to_generic_param (p : GenericParam) : GenericParam * list Error :=
  match p with
  | GPConst n ty => let (ty', es) := to_ty ty in (GPConst n ty', es)
  | _ => (p, [])
  end.

Definition to_where_predicate (w : WherePredicate) : WherePredicate * list Error :=
  let (ty', es) := to_ty (bounded_ty w) in (WP ty' (pred_bounds w), es).

Definition to_generics (g : Generics) : Generics * list Error :=
  let (ps, e1) := map_w to_generic_param (params g) in
  let (wc, e2) := option_w (map_w to_where_predicate) (where_clause g) in
  ({| params := ps; where_clause := wc |}, e1 ++ e2).

(** [fold::fold_item_impl] with this folder: generics, trait path, self
    type, items. *)
Definition to_item_impl (t : ItemImpl) : ItemImpl * list Error :=
  let (g, e1) := to_generics (impl_generics t) in
  let (sty, e2) := to_ty (self_ty t) in
  let (its, e3) := map_w to_impl_item (items t) in
  ({| impl_attrs := impl_attrs t; impl_generics := g; impl_trait := impl_trait t;
      self_ty := sty; items := its; impl_span := impl_span t;
      self_ty_span := self_ty_span t |}, e1 ++ e2 ++ e3).
End ToTuple.

(** ** [utils::add_tuple_element_generics] *)

(** [Generics::type_params], by name. *)
Definition type_params (g : Generics) : list Ident :=
  flat_map (fun p => match p with GPType n _ => [n] | _ => [] end) (params g).

(** [Generics::make_where_clause] followed by a push of [pred]. *)
Definition push_where_predicate (g : Generics) (pred : WherePredicate) : Generics :=
  let wc := match where_clause g with Some w => w | None => [] end in
  {| params := params g; where_clause := Some (wc ++ [pred]) |}.

(** The predicates of the where clause, if any. *)
Definition where_preds (g : Generics) : list WherePredicate :=
  match where_clause g with Some w => w | None => [] end.

Definition push_param (g : Generics) (p : GenericParam) : Generics :=
  {| params := params g ++ [p]; where_clause := where_clause g |}.

Definition add_tuple_element_generics (tuple_elements : list Ident) (bounds : Path)
    (generics : Generics) : Generics :=
  if existsb (fun t => existsb (fun t2 => String.eqb t2 t) tuple_elements) (type_params generics)
  then fold_left (fun g te => push_where_predicate g (WP (TyPath (ident_path te)) [bounds]))
         tuple_elements generics
  else fold_left (fun g te => push_param g (GPType te [bounds])) tuple_elements generics.

(** ** Generating the implementations *)

(** [add_tuple_elements_generics] *)
Definition add_tuple_elements_generics (tuples : list Ident) (trait_impl : ItemImpl)
    : Result ItemImpl :=
  match impl_trait trait_impl with
  | None => Err (error_new (impl_span trait_impl)
                  "The semi-automatic implementation is required to implement a trait!")
  | Some trait_ =>
      Ok (set_generics trait_impl
            (add_tuple_element_generics tuples trait_ (impl_generics trait_impl)))
  end.

(** [Vec::pop]: the last element and the rest. *)
Definition vec_pop {A} (v : list A) : option (A * list A) :=
  match rev v with
  | [] => None
  | x :: r => Some (x, rev r)
  end.

(** The tuple type [( #( #tuples ),* )]. *)
Definition tuple_type (tuples : list Ident) : Ty :=
  TyTuple (map (fun t => TyPath (ident_path t)) tuples).

(** [ToTupleImplementation::generate_implementation]; the token stream of the
    generated implementation is the implementation itself. *)
Definition generate_implementation (trait_impl : ItemImpl) (tuple_placeholder_ident : Ident)
    (tuples : list Ident) : Result ItemImpl :=
  let (res, errors) := to_item_impl tuples tuple_placeholder_ident trait_impl in
  let* res := add_tuple_elements_generics tuples res in
  let res := set_self_ty_attrs res (tuple_type tuples) (impl_attrs res ++ ["allow(unused)"%string]) in
  match vec_pop errors with
  | Some (first_error, rest) => Err (fold_left combine rest first_error)
  | None => Ok res
  end.

(** [extract_tuple_placeholder_ident] *)
Definition extract_tuple_placeholder_ident (trait_impl : ItemImpl) : Result Ident :=
  match self_ty trait_impl with
  | TyPath p =>
      match get_ident p with
      | Some i => Ok i
      | None => Err (error_new (self_ty_span trait_impl) "Expected an `Ident` as tuple placeholder.")
      end
  | _ => Err (error_new (self_ty_span trait_impl) "Expected an `Ident` as tuple placeholder.")
  end.

(** The [try_for_each] loop of [semi_automatic_impl] over the arities [is]:
    the arities for which [generate_implementation] was called, and the
    result ([res] accumulates the generated implementations). *)
Fixpoint try_for_each_arity (trait_impl : ItemImpl) (ph : Ident) (tuple_elements : list Ident)
    (is : list nat) (res : list ItemImpl) : list nat * Result (list ItemImpl) :=
  match is with
  | [] => ([], Ok res)
  | i :: rest =>
      match generate_implementation trait_impl ph (firstn i tuple_elements) with
      | Err e => ([i], Err e)
      | Ok r =>
          let (attempted, out) := try_for_each_arity trait_impl ph tuple_elements rest (res ++ [r]) in
          (i :: attempted, out)
      end
  end.

(** [(0..tuple_elements.len()).filter(|i| *i != 1)] *)
Definition arities (tuple_elements : list Ident) : list nat :=
  filter (fun i => negb (Nat.eqb i 1)) (seq 0 (length tuple_elements)).

(** [semi_automatic_impl], with the arities attempted by its loop. *)
Definition semi_automatic_run (trait_impl : ItemImpl) (tuple_elements : list Ident)
    : list nat * Result (list ItemImpl) :=
  match extract_tuple_placeholder_ident trait_impl with
  | Err e => ([], Err e)
  | Ok placeholder_ident =>
      try_for_each_arity trait_impl placeholder_ident tuple_elements (arities tuple_elements) []
  end.

(** [semi_automatic_impl] *)
Definition semi_automatic_impl (trait_impl : ItemImpl) (tuple_elements : list Ident)
    : Result (list ItemImpl) :=
  snd (semi_automatic_run trait_impl tuple_elements).

(** [generate_tuple_element_ident] *)
Definition generate_tuple_element_ident (num : nat) : Ident :=
  ("TupleElement" ++ NilZero.string_of_uint (Nat.to_uint num))%string.

(** [FullOrSemiAutomatic].  The full-automatic generator
    ([full_automatic.rs]) is not among the sources; only the semi-automatic
    variant is modelled. *)
Inductive FullOrSemiAutomatic :=
| Semi (trait_impl : ItemImpl).

(** [syn::LitInt]: the value of its base-10 digits and its span. *)
Record LitInt := MkLitInt { lit_value : nat; lit_span : nat }.

(** [usize::MAX] on the 64-bit host running the macro. *)
Definition usize_max : N := (2 ^ 64 - 1)%N.

(** [LitInt::base10_parse::<usize>()]: the digits overflow [usize] above
    [usize::MAX] ([ParseIntError] of kind [PosOverflow]). *)
Definition base10_parse_usize (count : LitInt) : Result nat :=
  if N.leb (N.of_nat (lit_value count)) usize_max then Ok (lit_value count)
  else Err (error_new (lit_span count) "number too large to fit in target type").

(** [impl_for_tuples_impl] *)
Definition impl_for_tuples_impl (input : FullOrSemiAutomatic) (count : LitInt)
    : Result (list ItemImpl) :=
  let* n := base10_parse_usize count in
  let tuple_elements := map generate_tuple_element_ident (seq 0 n) in
  match input with
  | Semi trait_impl => semi_automatic_impl trait_impl tuple_elements
  end.

(** The arity of a generated implementation: the size of its tuple self type. *)
Definition impl_arity (t : ItemImpl) : option nat :=
  match self_ty t with
  | TyTuple ts => Some (length ts)
  | _ => None
  end.

(** ** Occurrences of an identifier *)

Section Occurrences.
Variable x : Ident.

Definition occ_ident (i : Ident) : nat := if String.eqb i x then 1 else 0.

Definition occ_arg_path (a : ArgPath) : nat := list_sum (map occ_ident (arg_segments a)).

Definition occ_arguments (a : PathArguments) : nat :=
  match a with
  | PANone => 0
  | PAAngleBracketed args => list_sum (map occ_arg_path args)
  end.

Definition occ_segment (s : PathSegment) : nat :=
  occ_ident (seg_ident s) + occ_arguments (arguments s).

Definition occ_path (p : Path) : nat := list_sum (map occ_segment (segments p)).

Definition occ_member (m : Member) : nat :=
  match m with
  | Named i => occ_ident i
  | Unnamed _ => 0
  end.

(** Every occurrence of [x], in the trees and in token streams. *)
Fixpoint occ_tok (t : Token) : nat :=
  match t with
  | TkIdent i => occ_ident i
  | TkPunct _ | TkLit _ => 0
  | TkGroup _ ts => list_sum (map occ_tok ts)
  | TkStmt s => occ_stmt s
  end
with occ_stmt (s : Stmt) : nat :=
  match s with
  | SLocal pat init => occ_ident pat + match init with Some e => occ_expr e | None => 0 end
  | SExpr e | SSemi e => occ_expr e
  end
with occ_expr (e : Expr) : nat :=
  match e with
  | EPath p => occ_path p
  | ECall f args => occ_expr f + list_sum (map occ_expr args)
  | EMethodCall r m tf args =>
      occ_expr r + occ_ident m + list_sum (map occ_ty tf) + list_sum (map occ_expr args)
  | EField b mem => occ_expr b + occ_member mem
  | ETuple es => list_sum (map occ_expr es)
  | ETry e => occ_expr e
  | EBlock ss => list_sum (map occ_stmt ss)
  | ELit _ => 0
  | EMacro m => occ_macro m
  | EVerbatim ts => list_sum (map occ_tok ts)
  end
with occ_ty (t : Ty) : nat :=
  match t with
  | TyPath p => occ_path p
  | TyTuple ts => list_sum (map occ_ty ts)
  | TyMacro m => occ_macro m
  | TyVerbatim ts => list_sum (map occ_tok ts)
  end
with occ_macro (m : Macro) : nat :=
  match m with
  | MkMacro p ts _ => occ_path p + list_sum (map occ_tok ts)
  end.

Definition occ_toks (ts : list Token) : nat := list_sum (map occ_tok ts).

(** The occurrences of [x] inside token streams only (the token bodies of
    macro invocations and verbatim nodes), which no fold enters. *)
Definition tokocc_macro (m : Macro) : nat := occ_toks (mac_tokens m).

Fixpoint tokocc_ty (t : Ty) : nat :=
  match t with
  | TyPath _ => 0
  | TyTuple ts => list_sum (map tokocc_ty ts)
  | TyMacro m => tokocc_macro m
  | TyVerbatim ts => occ_toks ts
  end.

Fixpoint tokocc_stmt (s : Stmt) : nat :=
  match s with
  | SLocal _ init => match init with Some e => tokocc_expr e | None => 0 end
  | SExpr e | SSemi e => tokocc_expr e
  end
with tokocc_expr (e : Expr) : nat :=
  match e with
  | EPath _ | ELit _ => 0
  | ECall f args => tokocc_expr f + list_sum (map tokocc_expr args)
  | EMethodCall r _ tf args =>
      tokocc_expr r + list_sum (map tokocc_ty tf) + list_sum (map tokocc_expr args)
  | EField b _ => tokocc_expr b
  | ETuple es => list_sum (map tokocc_expr es)
  | ETry e => tokocc_expr e
  | EBlock ss => list_sum (map tokocc_stmt ss)
  | EMacro m => tokocc_macro m
  | EVerbatim ts => occ_toks ts
  end.

(** A method call whose receiver is the placeholder [x] has no occurrence
    of [x] outside token streams in its method name, turbofish and
    arguments, which the receiver rewrite copies unfolded. *)
Fixpoint rcv_clean_stmt (s : Stmt) : bool :=
  match s with
  | SLocal _ init => match init with Some e => rcv_clean_expr e | None => true end
  | SExpr e | SSemi e => rcv_clean_expr e
  end
with rcv_clean_expr (e : Expr) : bool :=
  match e with
  | EMethodCall r m tf args =>
      let untouched :=
        negb (String.eqb m x)
        && forallb (fun t => Nat.eqb (occ_ty t) (tokocc_ty t)) tf
        && forallb (fun a => Nat.eqb (occ_expr a) (tokocc_expr a)) args in
      match r with
      | EPath p => if is_ident p x then untouched else forallb rcv_clean_expr args
      | _ => rcv_clean_expr r && forallb rcv_clean_expr args
      end
  | ECall f args => rcv_clean_expr f && forallb rcv_clean_expr args
  | EField b _ => rcv_clean_expr b
  | ETuple es => forallb rcv_clean_expr es
  | ETry e => rcv_clean_expr e
  | EBlock ss => forallb rcv_clean_stmt ss
  | EPath _ | ELit _ | EMacro _ | EVerbatim _ => true
  end.
End Occurrences.

Definition is_stmt_token (t : Token) : bool :=
  match t with
  | TkStmt _ => true
  | _ => false
  end.

(** ** Concrete inputs *)

Section ConcreteInputs.
Local Open Scope string_scope.

(** [tuple_elements] of [impl_for_tuples_impl] for a count [n]. *)
Definition tuple_idents (n : nat) : list Ident := map generate_tuple_element_ident (seq 0 n).

(** The count [n] of [#[impl_for_tuples(n)]], at span 0. *)
Definition count_lit (n : nat) : LitInt := {| lit_value := n; lit_span := 0 |}.

(** The Missing-Self-Placeholder diagnostic of [extract_tuple_placeholder_ident]. *)
Definition err_placeholder (t : ItemImpl) : Error :=
  error_new (self_ty_span t) "Expected an `Ident` as tuple placeholder.".

(** The self type is a single bare identifier (spec, section 3). *)
Definition bare_self_ident (t : ItemImpl) : option Ident :=
match self_ty t with
| TyPath (MkPath false [MkSegment i PANone]) => Some i
| _ => None
end.

Definition emitted_arities (r : Result (list ItemImpl)) : option (list (option nat)) :=
match r with
| Ok l => Some (map impl_arity l)
| Err _ => None
end.

Definition no_generics : Generics := {| params := []; where_clause := None |}.

Definition simple_impl (trait_ : Ident) (sty : Ty) (its : list ImplItem) : ItemImpl :=
{| impl_attrs := []; impl_generics := no_generics; impl_trait := Some (ident_path trait_);
   self_ty := sty; items := its; impl_span := 0; self_ty_span := 0 |}.

(** [for_tuples!( #( body )* )] at statement position. *)
Definition for_tuples_stmt (body : list Stmt) (sp : nat) : Stmt :=
SSemi (EMacro (MkMacro (ident_path "for_tuples")
                 [TkPunct "#"; TkGroup Paren (map TkStmt body); TkPunct "*"] sp)).

(** The template of the test [trait_with_return_type]:
  [fn function(counter: &mut u32) -> Result<(), ()> {
     for_tuples!( #( Tuple::function(counter)?; )* ); Ok(()) }] *)
Definition return_type_method : ImplItem :=
IIMethod {| sig_ident := "function";
            sig_inputs := [Typed "counter" (TyPath (ident_path "u32"))];
            sig_output := Some (TyPath (ident_path "Result")) |}
  [for_tuples_stmt
     [SSemi (ETry (ECall (EPath (plain_path false ["Tuple"; "function"]))
                     [EPath (ident_path "counter")]))] 1;
   SExpr (ECall (EPath (ident_path "Ok")) [ETuple []])].

Definition tmpl_return_type : ItemImpl :=
simple_impl "TraitWithReturnType" (TyPath (ident_path "Tuple")) [return_type_method].

(** A malformed marker [for_tuples!( junk )]. *)
Definition bad_marker (sp : nat) : ImplItem :=
IIMacro (MkMacro (ident_path "for_tuples") [TkIdent "junk"] sp).

Definition tmpl_one_bad : ItemImpl :=
simple_impl "Trait" (TyPath (ident_path "Tuple")) [bad_marker 1].

Definition tmpl_two_bad : ItemImpl :=
simple_impl "Trait" (TyPath (ident_path "Tuple")) [bad_marker 1; bad_marker 2].

(** [impl Trait for a::Tuple { .. }] *)
Definition tmpl_qualified : ItemImpl :=
simple_impl "Trait" (TyPath (plain_path false ["a"; "Tuple"])) [return_type_method].

(** [impl Trait for Tuple<u32> { .. }] *)
Definition tmpl_generic : ItemImpl :=
simple_impl "Trait"
  (TyPath (MkPath false [MkSegment "Tuple" (PAAngleBracketed [MkArgPath false ["u32"]])]))
  [return_type_method].

(** [println!("{}", Tuple)]: a macro of another path mentioning the placeholder. *)
Definition println_macro : Macro :=
MkMacro (ident_path "println") [TkLit "{}"; TkPunct ","; TkIdent "Tuple"] 3.

(** [Tuple.a(Tuple.b());] *)
Definition nested_receiver_stmt : Stmt :=
SSemi (EMethodCall (EPath (ident_path "Tuple")) "a" []
         [EMethodCall (EPath (ident_path "Tuple")) "b" [] []]).

(** [Tuple.notify();] *)
Definition notify_stmt : Stmt :=
SSemi (EMethodCall (EPath (ident_path "Tuple")) "notify" [] []).

(** [impl Notify for Tuple { fn notify(&self) { for_tuples!( #( Tuple.a(Tuple.b()); )* ); } }] *)
Definition tmpl_nested_receiver : ItemImpl :=
simple_impl "Notify" (TyPath (ident_path "Tuple"))
  [IIMethod {| sig_ident := "notify"; sig_inputs := [Receiver]; sig_output := None |}
     [for_tuples_stmt [nested_receiver_stmt] 1]].

Definition c9_output : list ItemImpl :=
match impl_for_tuples_impl (Semi tmpl_return_type) (count_lit 4) with
| Ok l => l
| Err _ => []
end.

Definition gen_one_declared : Generics :=
{| params := [GPType "TupleElement0" []]; where_clause := None |}.

Definition gen_two : Generics :=
{| params := [GPType "T" []; GPLifetime "a"]; where_clause := None |}.

(** [impl Tuple { for_tuples!( junk ); }]: no trait, a malformed marker. *)
Definition tmpl_no_trait : ItemImpl :=
  {| impl_attrs := []; impl_generics := no_generics; impl_trait := None;
     self_ty := TyPath (ident_path "Tuple"); items := [bad_marker 1];
     impl_span := 7; self_ty_span := 0 |}.

End ConcreteInputs.

(** ** The macros the rewriter hands to [ForTuplesMacro::try_from] *)

(** The macro invocations [ToTupleImplementation] passes to [try_from], in
    traversal order: those at item position, those forming the whole
    expression of a statement, and those at type position.  A macro inside
    an expression (an argument, an initializer, the operand of [?]) goes
    through the default [fold_expr_macro] and is never parsed. *)
Fixpoint vis_ty (t : Ty) : list Macro :=
  match t with
  | TyMacro m => [m]
  | TyTuple ts => flat_map vis_ty ts
  | TyPath _ | TyVerbatim _ => []
  end.

Fixpoint vis_expr (e : Expr) : list Macro :=
  match e with
  | ECall f args => vis_expr f ++ flat_map vis_expr args
  | EMethodCall r _ tf args => vis_expr r ++ flat_map vis_ty tf ++ flat_map vis_expr args
  | EField b _ => vis_expr b
  | ETuple es => flat_map vis_expr es
  | ETry e => vis_expr e
  | EBlock ss => flat_map vis_stmt ss
  | EPath _ | ELit _ | EMacro _ | EVerbatim _ => []
  end
with vis_stmt (s : Stmt) : list Macro :=
  match s with
  | SLocal _ init => match init with Some e => vis_expr e | None => [] end
  | SExpr e | SSemi e => match e with EMacro m => [m] | _ => vis_expr e end
  end.

Definition vis_fn_arg (a : FnArg) : list Macro :=
  match a with
  | Receiver => []
  | Typed _ ty => vis_ty ty
  end.

Definition vis_signature (sg : Signature) : list Macro :=
  flat_map vis_fn_arg (sig_inputs sg)
  ++ match sig_output sg with Some t => vis_ty t | None => [] end.

Definition vis_impl_item (i : ImplItem) : list Macro :=
  match i with
  | IIMacro m => [m]
  | IIMethod sg block => vis_signature sg ++ flat_map vis_stmt block
  | IIType _ ty => vis_ty ty
  | IIVerbatim _ => []
  end.

Definition vis_generic_param (p : GenericParam) : list Macro :=
  match p with
  | GPConst _ ty => vis_ty ty
  | _ => []
  end.

Definition vis_generics (g : Generics) : list Macro :=
  flat_map vis_generic_param (params g)
  ++ match where_clause g with
     | Some w => flat_map (fun p => vis_ty (bounded_ty p)) w
     | None => []
     end.

Definition vis_item_impl (t : ItemImpl) : list Macro :=
  vis_generics (impl_generics t) ++ vis_ty (self_ty t) ++ flat_map vis_impl_item (items t).

(** The diagnostic [try_from] gives for a macro, if any. *)
Definition err_of (m : Macro) : list Error :=
  match try_from m with
  | Err e => [e]
  | Ok _ => []
  end.

Definition marker_errors (ms : list Macro) : list Error := flat_map err_of ms.

(** No macro of [ms] is a [for_tuples!] invocation. *)
Definition no_marker (ms : list Macro) : bool :=
  forallb (fun m => negb (is_ident (mac_path m) "for_tuples"%string)) ms.

(** The tokens of a [for_tuples!] body in each of its three forms, as a
    user writes them. *)
Definition repetition_tokens (r : TupleRepetition) : list Token :=
  [TkPunct "#"; TkGroup Paren (map TkStmt (stmts r))]
  ++ (if comma_token r then [TkPunct ","] else []) ++ [TkPunct "*"].

Definition for_tuples_tokens (ft : ForTuplesMacro) : list Token :=
  match ft with
  | FTItem ident rep =>
      [TkIdent "type"; TkIdent ident; TkPunct "="; TkGroup Paren (repetition_tokens rep); TkPunct ";"]
  | FTStmtParenthesized rep => [TkGroup Paren (repetition_tokens rep)]
  | FTStmt rep => repetition_tokens rep
  end%string.

(** The repetition of a [for_tuples!] body. *)
Definition ft_repetition (ft : ForTuplesMacro) : TupleRepetition :=
  match ft with
  | FTItem _ rep | FTStmtParenthesized rep | FTStmt rep => rep
  end.

(** Every expression statement of [ss] that is followed by another one
    needs no terminator: the statements are valid as the body of a block. *)
Fixpoint stmts_terminated (ss : list Stmt) : bool :=
  match ss with
  | [] => true
  | s :: rest =>
      match s, rest with
      | SExpr e, _ :: _ => negb (requires_terminator e) && stmts_terminated rest
      | _, _ => stmts_terminated rest
      end
  end.

(** The diagnostic of [generate_implementation] for a template without a trait. *)
Definition missing_trait_msg : string :=
  "The semi-automatic implementation is required to implement a trait!".

(** * Properties *)

Scheme Stmt_mut := Induction for Stmt Sort Prop
  with Expr_mut := Induction for Expr Sort Prop.
Combined Scheme StmtExpr_mut from Stmt_mut, Expr_mut.

(** ** Generic list facts *)

Lemma list_sum_cons (n : nat) (l : list nat) : list_sum (n :: l) = n + list_sum l.
Proof. reflexivity. Qed.

Lemma list_all_sum_map {A} (Q : A -> Prop) (f g : A -> nat) (h : A -> A) (l : list A) :
  list_all A (fun a => Q a -> f (h a) = g a) l ->
  (forall a, In a l -> Q a) ->
  list_sum (map f (map h l)) = list_sum (map g l).
Proof.
  induction 1 as [|a Ha l _ IH]; intros HQ; [reflexivity|].
  cbn [map]. rewrite !list_sum_cons. rewrite Ha by (apply HQ; left; reflexivity).
  rewrite IH by (intros b Hb; apply HQ; right; exact Hb). reflexivity.
Qed.

Lemma forallb_premise {A} (b : bool) (p : A -> bool) (l : list A) :
  (b = true -> forallb p l = true) -> forall a, In a l -> (b = true -> p a = true).
Proof.
  intros H a Ha Hb. specialize (H Hb). rewrite forallb_forall in H. auto.
Qed.

Lemma list_sum_map_ext {A} (f g : A -> nat) (l : list A) :
  (forall a, In a l -> f a = g a) -> list_sum (map f l) = list_sum (map g l).
Proof. intros H. f_equal. apply map_ext_in. exact H. Qed.

(** ** The placeholder replacement removes every occurrence outside token streams *)

Ltac csimpl := cbn -[list_sum occ_path rp_path occ_ident rp_ident self_index].

Section ReplaceOcc.
Variable rp : ReplaceTuplePlaceholder.
Variable x : Ident.
Hypothesis Hsearch : search rp = x.
Hypothesis Hreplace : replace rp <> x.
Hypothesis Hself : x <> "self"%string.

Lemma rp_ident_occ (i : Ident) : occ_ident x (rp_ident rp i) = 0.
Proof.
  unfold rp_ident, occ_ident. subst x.
  destruct (String.eqb i (search rp)) eqn:E.
  - destruct (String.eqb_spec (replace rp) (search rp)); congruence.
  - rewrite E. reflexivity.
Qed.

Lemma rp_idents_occ (l : list Ident) : list_sum (map (occ_ident x) (map (rp_ident rp) l)) = 0.
Proof. induction l as [|i l IH]; [reflexivity|]. cbn [map]. rewrite list_sum_cons, rp_ident_occ, IH. reflexivity. Qed.

Lemma rp_segment_occ (sg : PathSegment) : occ_segment x (rp_segment rp sg) = 0.
Proof.
  destruct sg as [i [|args]]; unfold occ_segment, rp_segment; cbn [seg_ident arguments rp_arguments occ_arguments];
    rewrite rp_ident_occ; [reflexivity|]. cbn [Nat.add].
  induction args as [|a args IH]; [reflexivity|].
  cbn [map]. rewrite list_sum_cons, IH. unfold occ_arg_path, rp_arg_path. cbn [arg_segments].
  rewrite rp_idents_occ. reflexivity.
Qed.

Lemma rp_path_occ (p : Path) : occ_path x (rp_path rp p) = 0.
Proof.
  unfold occ_path, rp_path; cbn. rewrite map_map.
  induction (segments p) as [|sg l IH]; cbn; [reflexivity|].
  rewrite rp_segment_occ, IH. reflexivity.
Qed.

Lemma rp_macro_occ (m : Macro) : occ_macro x (rp_macro rp m) = tokocc_macro x m.
Proof. destruct m as [p ts sp]; csimpl. rewrite rp_path_occ. reflexivity. Qed.

Lemma rp_ty_occ (t : Ty) : occ_ty x (rp_ty rp t) = tokocc_ty x t.
Proof.
  induction t as [p|ts IH|m|ts] using Ty_ind; csimpl.
  - apply rp_path_occ.
  - apply (list_all_sum_map (fun _ => True)); [|trivial].
    induction IH; constructor; auto.
  - apply rp_macro_occ.
  - reflexivity.
Qed.

Lemma occ_self : occ_ident x "self" = 0.
Proof. unfold occ_ident. destruct (String.eqb_spec "self" x); [congruence|reflexivity]. Qed.

Lemma self_index_occ : occ_expr x (self_index rp) = 0.
Proof.
  unfold self_index. csimpl. unfold occ_path. cbn [segments ident_path map].
  rewrite list_sum_cons. unfold occ_segment. cbn [seg_ident arguments occ_arguments].
  rewrite occ_self. reflexivity.
Qed.

Lemma rp_member_occ (m : Member) : occ_member x (rp_member rp m) = 0.
Proof. destruct m; csimpl; [apply rp_ident_occ|reflexivity]. Qed.

Definition recv_is_placeholder (r : Expr) : bool :=
  match r with
  | EPath p => is_ident p (search rp)
  | _ => false
  end.

Lemma rp_method_call_cases r m tf args :
  rp_expr rp (EMethodCall r m tf args) =
  if use_self rp && recv_is_placeholder r then EMethodCall (self_index rp) m tf args
  else EMethodCall (rp_expr rp r) (rp_ident rp m) (map (rp_ty rp) tf) (map (rp_expr rp) args).
Proof.
  cbn [rp_expr]. destruct (use_self rp); [|reflexivity].
  destruct r; reflexivity.
Qed.

Lemma rcv_clean_method_call_cases r m tf args :
  rcv_clean_expr x (EMethodCall r m tf args) =
  if recv_is_placeholder r then
    negb (String.eqb m x)
    && forallb (fun t => Nat.eqb (occ_ty x t) (tokocc_ty x t)) tf
    && forallb (fun a => Nat.eqb (occ_expr x a) (tokocc_expr x a)) args
  else rcv_clean_expr x r && forallb (rcv_clean_expr x) args.
Proof.
  cbn [rcv_clean_expr]. unfold recv_is_placeholder. rewrite Hsearch.
  destruct r; reflexivity.
Qed.

Lemma rp_ty_all (tf : list Ty) :
  list_all Ty (fun a => True -> occ_ty x (rp_ty rp a) = tokocc_ty x a) tf.
Proof. induction tf; constructor; auto using rp_ty_occ. Qed.

Ltac split_premise H :=
  let U := fresh "U" in
  let H1 := fresh H in
  let H2 := fresh H in
  assert (H1 : use_self rp = true -> _) by
    (intro U; specialize (H U); apply andb_prop in H; exact (proj1 H));
  assert (H2 : use_self rp = true -> _) by
    (intro U; specialize (H U); apply andb_prop in H; exact (proj2 H));
  clear H.

Lemma rp_stmt_expr_occ :
  (forall s, (use_self rp = true -> rcv_clean_stmt x s = true) ->
     occ_stmt x (rp_stmt rp s) = tokocc_stmt x s) /\
  (forall e, (use_self rp = true -> rcv_clean_expr x e = true) ->
     occ_expr x (rp_expr rp e) = tokocc_expr x e).
Proof.
  apply StmtExpr_mut.
  - (* SLocal *)
    intros pat init Hinit Hc. csimpl. rewrite rp_ident_occ.
    destruct Hinit as [e He|]; cbn; [apply He; exact Hc|reflexivity].
  - intros e He Hc. apply He. exact Hc.
  - intros e He Hc. apply He. exact Hc.
  - (* EPath *)
    intros p _. apply rp_path_occ.
  - (* ECall *)
    intros f Hf args Hargs Hc. cbn [rcv_clean_expr] in Hc. split_premise Hc.
    csimpl. rewrite (Hf Hc0).
    rewrite (list_all_sum_map _ _ _ _ _ Hargs (forallb_premise _ _ _ Hc1)). reflexivity.
  - (* EMethodCall *)
    intros r Hr m tf args Hargs Hc.
    rewrite rp_method_call_cases. rewrite rcv_clean_method_call_cases in Hc.
    destruct (use_self rp) eqn:U; cbn [andb].
    + destruct (recv_is_placeholder r) eqn:R.
      * destruct r; try discriminate R.
        specialize (Hc eq_refl). apply andb_prop in Hc as [Hc Hargs'].
        apply andb_prop in Hc as [Hm Htf].
        csimpl. rewrite self_index_occ.
        unfold occ_ident at 1. destruct (String.eqb m x); [discriminate Hm|].
        rewrite (list_sum_map_ext (occ_ty x) (tokocc_ty x)).
        2:{ intros a Ha. rewrite forallb_forall in Htf. apply Nat.eqb_eq, Htf, Ha. }
        rewrite (list_sum_map_ext (occ_expr x) (tokocc_expr x)).
        2:{ intros a Ha. rewrite forallb_forall in Hargs'. apply Nat.eqb_eq, Hargs', Ha. }
        reflexivity.
      * specialize (Hc eq_refl). apply andb_prop in Hc as [Hc0 Hc1].
        csimpl. rewrite (Hr (fun _ => Hc0)), rp_ident_occ.
        rewrite (list_all_sum_map (fun _ => True) (occ_ty x) (tokocc_ty x) (rp_ty rp)).
        2:{ apply rp_ty_all. }
        2:{ trivial. }
        rewrite (list_all_sum_map _ _ _ _ _ Hargs (forallb_premise true _ _ (fun _ => Hc1))).
        lia.
    + csimpl. rewrite Hr by discriminate. rewrite rp_ident_occ.
      rewrite (list_all_sum_map (fun _ => True) (occ_ty x) (tokocc_ty x) (rp_ty rp)).
      2:{ apply rp_ty_all. }
      2:{ trivial. }
      rewrite (list_all_sum_map _ _ _ _ _ Hargs); [|intros a _ H; discriminate H].
      lia.
  - (* EField *)
    intros b Hb mem Hc. csimpl. rewrite (Hb Hc), rp_member_occ. apply Nat.add_0_r.
  - (* ETuple *)
    intros es Hes Hc. csimpl.
    apply (list_all_sum_map _ _ _ _ _ Hes (forallb_premise _ _ _ Hc)).
  - (* ETry *)
    intros e He Hc. apply He. exact Hc.
  - (* EBlock *)
    intros ss Hss Hc. csimpl.
    apply (list_all_sum_map _ _ _ _ _ Hss (forallb_premise _ _ _ Hc)).
  - intros l _. reflexivity.
  - intros m _. apply rp_macro_occ.
  - intros ts _. reflexivity.
Qed.
End ReplaceOcc.

(** ** The arity loop *)

Lemma generate_implementation_arity (t : ItemImpl) (ph : Ident) (tuples : list Ident)
    (r : ItemImpl) :
  generate_implementation t ph tuples = Ok r -> impl_arity r = Some (length tuples).
Proof.
  unfold generate_implementation.
  destruct (to_item_impl tuples ph t) as [res errors].
  cbn [bind]. destruct (add_tuple_elements_generics tuples res) as [res'|e]; [|discriminate].
  destruct (vec_pop errors) as [[f rest]|]; [discriminate|].
  intros H. injection H as <-. unfold impl_arity, tuple_type; cbn.
  rewrite length_map. reflexivity.
Qed.

Lemma try_for_each_arity_ok (t : ItemImpl) (ph : Ident) (elems : list Ident) (is : list nat) :
  forall res att l,
  try_for_each_arity t ph elems is res = (att, Ok l) ->
  exists rs, l = res ++ rs /\
             map impl_arity rs = map (fun i => Some (length (firstn i elems))) is.
Proof.
  induction is as [|i rest IH]; intros res att l H; cbn in H.
  - injection H as _ <-. exists []. rewrite app_nil_r. split; reflexivity.
  - destruct (generate_implementation t ph (firstn i elems)) as [r|e] eqn:G; [|discriminate].
    destruct (try_for_each_arity t ph elems rest (res ++ [r])) as [att' out] eqn:E.
    injection H as _ ->.
    destruct (IH _ _ _ E) as [rs [-> Hm]].
    exists (r :: rs). split; [rewrite <- app_assoc; reflexivity|].
    cbn. rewrite (generate_implementation_arity _ _ _ _ G), Hm. reflexivity.
Qed.

Lemma in_arities (elems : list Ident) (i : nat) :
  In i (arities elems) -> i < length elems /\ i <> 1.
Proof.
  unfold arities. rewrite filter_In, in_seq. intros [[_ Hlt] Hne].
  split; [lia|]. apply negb_true_iff, Nat.eqb_neq in Hne. exact Hne.
Qed.

(** The arities emitted for a count [n]: [0 .. n-1] without [1]. *)
Lemma impl_for_tuples_impl_parsed (t : ItemImpl) (c : LitInt) (r : Result (list ItemImpl)) :
  impl_for_tuples_impl (Semi t) c = r ->
  (N.of_nat (lit_value c) <= usize_max)%N /\
  semi_automatic_impl t (map generate_tuple_element_ident (seq 0 (lit_value c))) = r
  \/
  (usize_max < N.of_nat (lit_value c))%N /\
  r = Err (error_new (lit_span c) "number too large to fit in target type").
Proof.
  unfold impl_for_tuples_impl, base10_parse_usize.
  destruct (N.leb (N.of_nat (lit_value c)) usize_max) eqn:E; cbn [bind]; intros <-.
  - left. split; [apply N.leb_le; exact E|reflexivity].
  - right. split; [apply N.leb_gt; exact E|reflexivity].
Qed.

Lemma impl_for_tuples_impl_ok (t : ItemImpl) (c : LitInt) (l : list ItemImpl) :
  impl_for_tuples_impl (Semi t) c = Ok l ->
  semi_automatic_impl t (map generate_tuple_element_ident (seq 0 (lit_value c))) = Ok l.
Proof.
  intros H. destruct (impl_for_tuples_impl_parsed t c _ H) as [[_ E]|[_ E]]; [exact E|discriminate].
Qed.

Lemma emitted_arities_of_count (t : ItemImpl) (c : LitInt) (l : list ItemImpl) :
  impl_for_tuples_impl (Semi t) c = Ok l ->
  map impl_arity l = map Some (filter (fun i => negb (Nat.eqb i 1)) (seq 0 (lit_value c))).
Proof.
  intros H. apply impl_for_tuples_impl_ok in H. revert H. set (n := lit_value c).
  unfold semi_automatic_impl, semi_automatic_run.
  destruct (extract_tuple_placeholder_ident t) as [ph|e]; [|discriminate].
  set (elems := map generate_tuple_element_ident (seq 0 n)).
  destruct (try_for_each_arity t ph elems (arities elems) []) as [att out] eqn:E.
  cbn [snd]. intros ->.
  destruct (try_for_each_arity_ok _ _ _ _ _ _ _ E) as [rs [-> Hm]].
  cbn [app]. rewrite Hm.
  assert (Hlen : length elems = n) by (unfold elems; rewrite length_map, length_seq; reflexivity).
  unfold arities. rewrite Hlen.
  apply map_ext_in. intros i Hi.
  assert (Hi' : i < n) by (rewrite filter_In, in_seq in Hi; lia).
  rewrite length_firstn, Hlen. f_equal. lia.
Qed.

Lemma try_for_each_arity_trace (t : ItemImpl) (ph : Ident) (elems : list Ident) (is : list nat) :
  forall res,
  let run := try_for_each_arity t ph elems is res in
  (fst run = is /\
   (forall i, In i is -> exists r, generate_implementation t ph (firstn i elems) = Ok r) /\
   exists l, snd run = Ok (res ++ l) /\
     Forall2 (fun r i => generate_implementation t ph (firstn i elems) = Ok r) l is)
  \/
  (exists pre i post e,
     is = pre ++ i :: post /\ fst run = pre ++ [i] /\
     (forall j, In j pre -> exists r, generate_implementation t ph (firstn j elems) = Ok r) /\
     generate_implementation t ph (firstn i elems) = Err e /\ snd run = Err e).
Proof.
  induction is as [|a rest IH]; intros res run; subst run; cbn.
  - left. split; [reflexivity|]. split; [intros i []|].
    exists []. rewrite app_nil_r. split; [reflexivity|constructor].
  - destruct (generate_implementation t ph (firstn a elems)) as [r|e] eqn:G.
    + specialize (IH (res ++ [r])). cbn in IH.
      destruct (try_for_each_arity t ph elems rest (res ++ [r])) as [att out].
      cbn in IH |- *.
      destruct IH as [[Hatt [Hall [l [Hok Hf]]]] | [pre [i [post [e [Hrest [Hatt [Hpre [Hi Hout]]]]]]]]].
      * left. split; [congruence|]. split.
        -- intros i [<-|Hi]; [eauto|auto].
        -- exists (r :: l). rewrite Hok, <- app_assoc. split; [reflexivity|].
           constructor; assumption.
      * right. exists (a :: pre), i, post, e.
        split; [cbn; congruence|]. split; [cbn; congruence|].
        split; [|auto]. intros j [<-|Hj]; [eauto|auto].
    + right. exists [], a, rest, e. cbn. repeat split; auto. intros j [].
Qed.

(** ** The token layout of an expansion *)

Lemma expand_from_shape (r : TupleRepetition) (ph : Ident) (us : bool) (tuples : list Ident) :
  forall i,
  expand_from r ph us i tuples =
  concat (map (fun j => map (fun s => TkStmt (replace_ident_in_stmt ph (nth j tuples ""%string) us (i + j) s)) (stmts r)
                        ++ (if comma_token r then [TkPunct ","%string] else []))
              (seq 0 (length tuples))).
Proof.
  induction tuples as [|tu rest IH]; intros i; [reflexivity|].
  cbn [expand_from length seq map concat]. rewrite Nat.add_0_r, <- app_assoc.
  f_equal. f_equal. rewrite IH, <- seq_shift, map_map. f_equal.
  apply map_ext. intros j. cbn [nth]. rewrite Nat.add_succ_r. reflexivity.
Qed.

Lemma occ_toks_app (x : Ident) (l1 l2 : list Token) :
  occ_toks x (l1 ++ l2) = occ_toks x l1 + occ_toks x l2.
Proof. unfold occ_toks. rewrite map_app, list_sum_app. reflexivity. Qed.

Lemma expand_from_counts (r : TupleRepetition) (ph : Ident) (us : bool) (tuples : list Ident) :
  ~ In ph tuples -> ph <> "self"%string ->
  (us = true -> forallb (rcv_clean_stmt ph) (stmts r) = true) ->
  forall i,
  length (filter is_stmt_token (expand_from r ph us i tuples)) = length tuples * length (stmts r) /\
  occ_toks ph (expand_from r ph us i tuples) = length tuples * list_sum (map (tokocc_stmt ph) (stmts r)).
Proof.
  intros Hin Hself Hclean.
  induction tuples as [|tu rest IH]; intros i; [split; reflexivity|].
  assert (Hne : tu <> ph) by (intros ->; apply Hin; left; reflexivity).
  assert (Hrest : ~ In ph rest) by (intros H; apply Hin; right; exact H).
  destruct (IH Hrest (S i)) as [IHlen IHocc].
  cbn [expand_from length]. split.
  - rewrite !filter_app, !length_app, IHlen.
    assert (Hs : forall (f : Stmt -> Stmt) (l : list Stmt),
               filter is_stmt_token (map (fun s => TkStmt (f s)) l) = map (fun s => TkStmt (f s)) l).
    { intros f l. induction l as [|s ss IHs]; [reflexivity|].
      cbn [map filter is_stmt_token]. rewrite IHs. reflexivity. }
    rewrite Hs, length_map. destruct (comma_token r); cbn; lia.
  - rewrite !occ_toks_app, IHocc.
    assert (Hcopy : occ_toks ph (map (fun s => TkStmt (replace_ident_in_stmt ph tu us i s)) (stmts r))
                    = list_sum (map (tokocc_stmt ph) (stmts r))).
    { unfold occ_toks. rewrite map_map. apply list_sum_map_ext. intros s Hs. cbn [occ_tok].
      unfold replace_ident_in_stmt.
      apply (proj1 (rp_stmt_expr_occ {| search := ph; replace := tu; use_self := us; index := i |}
                      ph eq_refl Hne Hself)).
      cbn [use_self]. intros Hus. specialize (Hclean Hus).
      rewrite forallb_forall in Hclean. apply Hclean, Hs. }
    rewrite Hcopy. destruct (comma_token r); cbn; lia.
Qed.

(** ** C1 *)

(** C1 (code bug): for an arity count [N] the generator should emit one
    implementation for every arity in [0, N] except 1.  The semi-automatic
    loop runs over [0..tuple_elements.len()], so arity [N] is never emitted:
    for [N = 2] on the template of the test [trait_with_return_type] only the
    arity-0 implementation is produced (no pair implementation), and for
    any count the emitted arities are [0 .. N-1] without 1. *)
Theorem c1_count_two_emits_only_arity_zero :
  emitted_arities (impl_for_tuples_impl (Semi tmpl_return_type) (count_lit 2)) = Some [Some 0] /\
  emitted_arities (impl_for_tuples_impl (Semi tmpl_return_type) (count_lit 0)) = Some [] /\
  emitted_arities (impl_for_tuples_impl (Semi tmpl_return_type) (count_lit 5)) =
    Some [Some 0; Some 2; Some 3; Some 4].
Proof. vm_compute. repeat split. Qed.

(** ** C2 *)

(** C2 (counterexample): the placeholder is not replaced inside the token
    body of a nested macro invocation: expanding [#( println!("{}", Tuple); )*]
    for two positions leaves two occurrences of [Tuple] in the output. *)
Lemma c2_placeholder_left_in_macro_tokens :
  occ_toks "Tuple" (rep_expand {| stmts := [SSemi (EMacro println_macro)]; comma_token := false |}
                      "Tuple" (tuple_idents 2) false) = 2.
Proof. vm_compute. reflexivity. Qed.

(** C2 (amended): expanding a repetition marker with [k] tuple identifiers
    yields [k] copies of the statement body, and every occurrence of the
    placeholder in the syntax trees of the copies is replaced: the only
    occurrences left are those inside the token bodies of nested macro
    invocations, copied unchanged into each of the [k] copies.  (The
    placeholder differs from the tuple identifiers and from [self]; with a
    receiver, the method name, turbofish and arguments of a call on the
    placeholder receiver are assumed to hold no occurrence outside token
    bodies.) *)
Theorem rep_expand_replaces_placeholder (r : TupleRepetition) (ph : Ident)
    (tuples : list Ident) (us : bool) :
  ~ In ph tuples -> ph <> "self"%string ->
  (us = true -> forallb (rcv_clean_stmt ph) (stmts r) = true) ->
  length (filter is_stmt_token (rep_expand r ph tuples us)) = length tuples * length (stmts r) /\
  occ_toks ph (rep_expand r ph tuples us) = length tuples * list_sum (map (tokocc_stmt ph) (stmts r)).
Proof. intros Hin Hself Hclean. apply expand_from_counts; assumption. Qed.

Lemma rep_expand_replaces_placeholder_witness :
  length (filter is_stmt_token
            (rep_expand {| stmts := [notify_stmt; SSemi (EMacro println_macro)]; comma_token := false |}
               "Tuple" (tuple_idents 3) true)) = 3 * 2 /\
  occ_toks "Tuple" (rep_expand {| stmts := [notify_stmt; SSemi (EMacro println_macro)]; comma_token := false |}
               "Tuple" (tuple_idents 3) true) = 3 * 1.
Proof.
  apply (rep_expand_replaces_placeholder
           {| stmts := [notify_stmt; SSemi (EMacro println_macro)]; comma_token := false |}
           "Tuple" (tuple_idents 3) true).
  - vm_compute. intros [H|[H|[H|[]]]]; discriminate H.
  - discriminate.
  - intros _. vm_compute. reflexivity.
Defined.

(** ** C3 *)

(** C3 (code bug): with a receiver, only the outermost call on the
    placeholder receiver is rewritten: [fold_expr] replaces the receiver by
    [self.i] and returns the call without folding its arguments, so in
    [Tuple.a(Tuple.b())] the inner call on the placeholder receiver is left
    as [Tuple.b()] (neither [self.i.b()] nor a renamed element), while a
    plain [Tuple.notify()] becomes [self.0.notify()], [self.1.notify()], ...
    The template is [tmpl_nested_receiver], a method with [&self]. *)
Theorem c3_nested_receiver_not_rewritten :
  (exists r, generate_implementation tmpl_nested_receiver "Tuple"%string (tuple_idents 2) = Ok r /\
   items r =
   [IIMethod {| sig_ident := "notify"; sig_inputs := [Receiver]; sig_output := None |}
     [SExpr (EVerbatim
   [TkStmt (SSemi (EMethodCall (EField (EPath (ident_path "self")) (Unnamed 0)) "a" []
                    [EMethodCall (EPath (ident_path "Tuple")) "b" [] []]));
   TkStmt (SSemi (EMethodCall (EField (EPath (ident_path "self")) (Unnamed 1)) "a" []
                    [EMethodCall (EPath (ident_path "Tuple")) "b" [] []]))])]]%string) /\
  rep_expand {| stmts := [notify_stmt]; comma_token := false |} "Tuple" (tuple_idents 3) true =
  [TkStmt (SSemi (EMethodCall (EField (EPath (ident_path "self")) (Unnamed 0)) "notify" [] []));
   TkStmt (SSemi (EMethodCall (EField (EPath (ident_path "self")) (Unnamed 1)) "notify" [] []));
   TkStmt (SSemi (EMethodCall (EField (EPath (ident_path "self")) (Unnamed 2)) "notify" [] []))]%string.
Proof. split; [eexists; split; vm_compute; reflexivity | vm_compute; reflexivity]. Qed.

(** ** C4 *)

(** C4 (counterexample): with the comma token the separator is not only
    placed between consecutive copies: a comma also follows the last copy. *)
Lemma c4_trailing_comma :
  rep_expand {| stmts := [SExpr (EPath (ident_path "Tuple"))]; comma_token := true |}
    "Tuple" (tuple_idents 2) false =
  [TkStmt (SExpr (EPath (ident_path "TupleElement0"))); TkPunct ",";
   TkStmt (SExpr (EPath (ident_path "TupleElement1"))); TkPunct ","]%string /\
  rep_expand {| stmts := [SExpr (EPath (ident_path "Tuple"))]; comma_token := true |}
    "Tuple" (tuple_idents 2) false <>
  [TkStmt (SExpr (EPath (ident_path "TupleElement0"))); TkPunct ",";
   TkStmt (SExpr (EPath (ident_path "TupleElement1")))]%string.
Proof. split; vm_compute; [reflexivity|discriminate]. Qed.

(** C4 (amended): the expansion is the concatenation, in position order, of
    the copies of the statement body, each copy followed by a comma when
    the comma token is present (so also after the last copy), and followed
    by nothing when it is absent. *)
Theorem rep_expand_separator_after_each_copy (r : TupleRepetition) (ph : Ident)
    (tuples : list Ident) (us : bool) :
  rep_expand r ph tuples us =
  concat (map (fun i => map (fun s => TkStmt (replace_ident_in_stmt ph (nth i tuples ""%string) us i s)) (stmts r)
                        ++ (if comma_token r then [TkPunct ","%string] else []))
              (seq 0 (length tuples))).
Proof. unfold rep_expand. rewrite expand_from_shape. reflexivity. Qed.

(** ** C5 *)

(** C5 (counterexample): a failing arity stops the run: with a malformed
    marker and three tuple elements, the arities are [0; 2] but only arity 0
    is attempted, and its diagnostic is the result. *)
Lemma c5_run_stops_at_first_failing_arity :
  arities (tuple_idents 3) = [0; 2] /\
  fst (semi_automatic_run tmpl_one_bad (tuple_idents 3)) = [0] /\
  semi_automatic_impl tmpl_one_bad (tuple_idents 3) =
    Err (error_new 1 "expected one of: `type`, parentheses, `#`").
Proof. vm_compute. repeat split. Qed.

(** C5 (amended): the arities are generated in ascending order and the run
    stops at the first arity whose generation fails: every earlier arity
    succeeded, no later arity is attempted, and the failing arity's merged
    diagnostic is the result; when no arity fails, all are attempted and the
    result is the list of their implementations, one per arity in order. *)
Theorem arity_loop_stops_at_first_failure (t : ItemImpl) (elems : list Ident) (ph : Ident) :
  extract_tuple_placeholder_ident t = Ok ph ->
  (fst (semi_automatic_run t elems) = arities elems /\
   (forall i, In i (arities elems) -> exists r, generate_implementation t ph (firstn i elems) = Ok r) /\
   exists l, semi_automatic_impl t elems = Ok l /\
     Forall2 (fun r i => generate_implementation t ph (firstn i elems) = Ok r) l (arities elems))
  \/
  (exists pre i post e,
     arities elems = pre ++ i :: post /\ fst (semi_automatic_run t elems) = pre ++ [i] /\
     (forall j, In j pre -> exists r, generate_implementation t ph (firstn j elems) = Ok r) /\
     generate_implementation t ph (firstn i elems) = Err e /\
     semi_automatic_impl t elems = Err e).
Proof.
  intros Hx. unfold semi_automatic_impl, semi_automatic_run. rewrite Hx.
  exact (try_for_each_arity_trace t ph elems (arities elems) []).
Qed.

Lemma arity_loop_stops_at_first_failure_witness :
  (fst (semi_automatic_run tmpl_return_type (tuple_idents 3)) = arities (tuple_idents 3) /\
   (forall i, In i (arities (tuple_idents 3)) ->
      exists r, generate_implementation tmpl_return_type "Tuple" (firstn i (tuple_idents 3)) = Ok r) /\
   exists l, semi_automatic_impl tmpl_return_type (tuple_idents 3) = Ok l /\
     Forall2 (fun r i => generate_implementation tmpl_return_type "Tuple" (firstn i (tuple_idents 3)) = Ok r)
       l (arities (tuple_idents 3)))
  \/
  (exists pre i post e,
     arities (tuple_idents 3) = pre ++ i :: post /\
     fst (semi_automatic_run tmpl_return_type (tuple_idents 3)) = pre ++ [i] /\
     (forall j, In j pre ->
        exists r, generate_implementation tmpl_return_type "Tuple" (firstn j (tuple_idents 3)) = Ok r) /\
     generate_implementation tmpl_return_type "Tuple" (firstn i (tuple_idents 3)) = Err e /\
     semi_automatic_impl tmpl_return_type (tuple_idents 3) = Err e).
Proof.
  apply (arity_loop_stops_at_first_failure tmpl_return_type (tuple_idents 3) "Tuple").
  vm_compute. reflexivity.
Defined.

(** ** C6 *)

(** C6 (code bug): the diagnostics of one arity are merged with
    [errors.pop()] as the primary error, which is the last accumulated one:
    with two malformed markers (spans 1 then 2), the reported failure starts
    with the diagnostic of the second marker, and the first is attached
    after it. *)
Theorem c6_last_diagnostic_is_primary :
  generate_implementation tmpl_two_bad "Tuple" [] =
    Err [(2, "expected one of: `type`, parentheses, `#`");
         (1, "expected one of: `type`, parentheses, `#`")]%string /\
  impl_for_tuples_impl (Semi tmpl_two_bad) (count_lit 3) =
    Err [(2, "expected one of: `type`, parentheses, `#`");
         (1, "expected one of: `type`, parentheses, `#`")]%string.
Proof. split; vm_compute; reflexivity. Qed.

(** ** C7 *)

Lemma extract_placeholder_cases (t : ItemImpl) :
  match bare_self_ident t with
  | Some ph => extract_tuple_placeholder_ident t = Ok ph
  | None => extract_tuple_placeholder_ident t =
              Err (error_new (self_ty_span t) "Expected an `Ident` as tuple placeholder.")
  end.
Proof.
  unfold bare_self_ident, extract_tuple_placeholder_ident, get_ident.
  destruct (self_ty t) as [[[|] [|[i [|args]] [|sg segs]]]| | |]; reflexivity.
Qed.

(** C7: when the self type of the template is not a single bare identifier
    (a qualified path such as [a::Tuple], a path with generic arguments such
    as [Tuple<u32>], a tuple, a macro), the generator attempts no arity and
    fails with the Missing-Self-Placeholder diagnostic at the self type, for
    every count that parses as a [usize]; for any count, no implementation is
    emitted.  When it is a bare identifier, that identifier is the
    placeholder given to the generation of every arity. *)
Theorem semi_automatic_requires_bare_placeholder (t : ItemImpl) (elems : list Ident) :
  (bare_self_ident t = None ->
     fst (semi_automatic_run t elems) = [] /\
     semi_automatic_impl t elems =
       Err (err_placeholder t) /\
     (forall c, (N.of_nat (lit_value c) <= usize_max)%N ->
        impl_for_tuples_impl (Semi t) c = Err (err_placeholder t)) /\
     (forall c, exists e, impl_for_tuples_impl (Semi t) c = Err e)) /\
  (forall ph, bare_self_ident t = Some ph ->
     extract_tuple_placeholder_ident t = Ok ph /\
     semi_automatic_run t elems = try_for_each_arity t ph elems (arities elems) []).
Proof.
  pose proof (extract_placeholder_cases t) as Hx.
  unfold semi_automatic_impl, semi_automatic_run.
  split.
  - intros Hb. rewrite Hb in Hx. rewrite Hx. split; [reflexivity|]. split; [reflexivity|].
    split.
    + intros c Hc. unfold impl_for_tuples_impl, base10_parse_usize.
      rewrite (proj2 (N.leb_le _ _) Hc). cbn [bind].
      unfold semi_automatic_impl, semi_automatic_run. rewrite Hx. reflexivity.
    + intros c. unfold impl_for_tuples_impl, base10_parse_usize.
      destruct (N.leb (N.of_nat (lit_value c)) usize_max); cbn [bind]; [|eexists; reflexivity].
      unfold semi_automatic_impl, semi_automatic_run. rewrite Hx. eexists. reflexivity.
  - intros ph Hb. rewrite Hb in Hx. rewrite Hx. split; reflexivity.
Qed.

Lemma semi_automatic_requires_bare_placeholder_witness :
  (fst (semi_automatic_run tmpl_qualified (tuple_idents 3)) = [] /\
   semi_automatic_impl tmpl_qualified (tuple_idents 3) = Err (err_placeholder tmpl_qualified) /\
   (forall c, (N.of_nat (lit_value c) <= usize_max)%N ->
      impl_for_tuples_impl (Semi tmpl_qualified) c = Err (err_placeholder tmpl_qualified)) /\
   (forall c, exists e, impl_for_tuples_impl (Semi tmpl_qualified) c = Err e)) /\
  (fst (semi_automatic_run tmpl_generic (tuple_idents 3)) = [] /\
   semi_automatic_impl tmpl_generic (tuple_idents 3) = Err (err_placeholder tmpl_generic) /\
   (forall c, (N.of_nat (lit_value c) <= usize_max)%N ->
      impl_for_tuples_impl (Semi tmpl_generic) c = Err (err_placeholder tmpl_generic)) /\
   (forall c, exists e, impl_for_tuples_impl (Semi tmpl_generic) c = Err e)) /\
  (extract_tuple_placeholder_ident tmpl_return_type = Ok "Tuple"%string /\
   semi_automatic_run tmpl_return_type (tuple_idents 3) =
     try_for_each_arity tmpl_return_type "Tuple" (tuple_idents 3) (arities (tuple_idents 3)) []).
Proof.
  split; [|split].
  - apply (proj1 (semi_automatic_requires_bare_placeholder tmpl_qualified (tuple_idents 3))).
    vm_compute. reflexivity.
  - apply (proj1 (semi_automatic_requires_bare_placeholder tmpl_generic (tuple_idents 3))).
    vm_compute. reflexivity.
  - apply (proj2 (semi_automatic_requires_bare_placeholder tmpl_return_type (tuple_idents 3))).
    vm_compute. reflexivity.
Defined.

(** ** C8 *)

Lemma fold_where_some (bounds : Path) (tes : list Ident) (ps : list GenericParam)
    (w : list WherePredicate) :
  fold_left (fun g te => push_where_predicate g (WP (TyPath (ident_path te)) [bounds])) tes
    {| params := ps; where_clause := Some w |} =
  {| params := ps;
     where_clause := Some (w ++ map (fun te => WP (TyPath (ident_path te)) [bounds]) tes) |}.
Proof.
  revert w. induction tes as [|te tes IH]; intros w; cbn.
  - rewrite app_nil_r. reflexivity.
  - unfold push_where_predicate at 2. cbn. rewrite IH, <- app_assoc. reflexivity.
Qed.

Lemma fold_push_param (bounds : Path) (tes : list Ident) (ps : list GenericParam)
    (wc : option (list WherePredicate)) :
  fold_left (fun g te => push_param g (GPType te [bounds])) tes
    {| params := ps; where_clause := wc |} =
  {| params := ps ++ map (fun te => GPType te [bounds]) tes; where_clause := wc |}.
Proof.
  revert ps. induction tes as [|te tes IH]; intros ps; cbn.
  - rewrite app_nil_r. reflexivity.
  - unfold push_param at 2. cbn. rewrite IH, <- app_assoc. reflexivity.
Qed.

Lemma type_params_append (ps : list GenericParam) (wc : option (list WherePredicate))
    (bounds : Path) (tes : list Ident) :
  type_params {| params := ps ++ map (fun te => GPType te [bounds]) tes; where_clause := wc |} =
  type_params {| params := ps; where_clause := wc |} ++ tes.
Proof.
  unfold type_params. cbn. rewrite flat_map_app. f_equal.
  induction tes as [|te tes IH]; cbn; [reflexivity|]. rewrite IH. reflexivity.
Qed.

Lemma declared_test (tes : list Ident) (g : Generics) :
  existsb (fun t => existsb (fun t2 => String.eqb t2 t) tes) (type_params g) = true <->
  exists te, In te tes /\ In te (type_params g).
Proof.
  rewrite existsb_exists. split.
  - intros [t [Ht He]]. apply existsb_exists in He. destruct He as [t2 [Ht2 E]].
    apply String.eqb_eq in E. subst t2. exists t. split; assumption.
  - intros [te [H1 H2]]. exists te. split; [assumption|].
    apply existsb_exists. exists te. split; [assumption|]. apply String.eqb_refl.
Qed.

(** C8 (counterexample): the where-clause path is taken as soon as one
    tuple element identifier is declared: with [TupleElement0] declared and
    the elements [TupleElement0], [TupleElement1], both get a where-clause
    predicate and [TupleElement1] is not declared as a type parameter. *)
Lemma c8_partial_declaration_uses_where_clause :
  add_tuple_element_generics (tuple_idents 2) (ident_path "Trait") gen_one_declared =
  {| params := [GPType "TupleElement0" []];
     where_clause := Some [WP (TyPath (ident_path "TupleElement0")) [ident_path "Trait"];
                           WP (TyPath (ident_path "TupleElement1")) [ident_path "Trait"]] |}%string /\
  existsb (String.eqb "TupleElement1")
    (type_params (add_tuple_element_generics (tuple_idents 2) (ident_path "Trait") gen_one_declared))
  = false.
Proof. split; vm_compute; reflexivity. Qed.

(** C8 (amended): if at least one tuple element identifier is already a
    declared type parameter, the parameters are left as they are and one
    where-clause predicate with the bound is added per identifier, in order;
    if none is declared, each identifier is appended as a new type parameter
    carrying the bound and the where clause is left as it is. Either way, a
    declared name is never declared twice. *)
Theorem add_tuple_element_generics_paths (tes : list Ident) (bounds : Path) (g : Generics) :
  ((exists te, In te tes /\ In te (type_params g)) ->
     add_tuple_element_generics tes bounds g =
     {| params := params g;
        where_clause := Some (where_preds g ++
                              map (fun te => WP (TyPath (ident_path te)) [bounds]) tes) |}) /\
  ((forall te, In te tes -> ~ In te (type_params g)) ->
     add_tuple_element_generics tes bounds g =
     {| params := params g ++ map (fun te => GPType te [bounds]) tes;
        where_clause := where_clause g |}) /\
  (NoDup tes -> NoDup (type_params g) ->
     NoDup (type_params (add_tuple_element_generics tes bounds g))).
Proof.
  destruct g as [ps wc].
  assert (Hw : (exists te, In te tes /\ In te (type_params {| params := ps; where_clause := wc |})) ->
     add_tuple_element_generics tes bounds {| params := ps; where_clause := wc |} =
     {| params := ps;
        where_clause := Some (where_preds {| params := ps; where_clause := wc |} ++
                              map (fun te => WP (TyPath (ident_path te)) [bounds]) tes) |}).
  { intros Hex. pose proof Hex as [te [Hin _]].
    unfold add_tuple_element_generics. rewrite (proj2 (declared_test _ _) Hex).
    destruct tes as [|te0 tes]; [contradiction|].
    cbn [fold_left]. unfold push_where_predicate at 2. cbn [params where_clause].
    rewrite fold_where_some, <- app_assoc. reflexivity. }
  assert (Hp : existsb (fun t => existsb (fun t2 => String.eqb t2 t) tes)
                 (type_params {| params := ps; where_clause := wc |}) = false ->
     add_tuple_element_generics tes bounds {| params := ps; where_clause := wc |} =
     {| params := ps ++ map (fun te => GPType te [bounds]) tes; where_clause := wc |}).
  { intros E. unfold add_tuple_element_generics. rewrite E. apply fold_push_param. }
  split; [exact Hw|]. split.
  - intros Hnone. apply Hp.
    destruct (existsb _ _) eqn:E; [|reflexivity].
    apply declared_test in E. destruct E as [te [H1 H2]]. exfalso. exact (Hnone te H1 H2).
  - intros Ht Hg.
    destruct (existsb (fun t => existsb (fun t2 => String.eqb t2 t) tes)
                (type_params {| params := ps; where_clause := wc |})) eqn:E.
    + rewrite (Hw (proj1 (declared_test _ _) E)). exact Hg.
    + rewrite (Hp eq_refl), type_params_append. apply NoDup_app; [exact Hg|exact Ht|].
      intros a Ha Hb. assert (E' : exists te, In te tes /\ In te (type_params {| params := ps; where_clause := wc |}))
        by (exists a; split; assumption).
      apply declared_test in E'. rewrite E in E'. discriminate.
Qed.

Lemma add_tuple_element_generics_paths_witness :
  add_tuple_element_generics (tuple_idents 2) (ident_path "Trait") gen_one_declared =
  {| params := params gen_one_declared;
     where_clause := Some (where_preds gen_one_declared ++
                           map (fun te => WP (TyPath (ident_path te)) [ident_path "Trait"])
                             (tuple_idents 2)) |} /\
  add_tuple_element_generics (tuple_idents 2) (ident_path "Trait") gen_two =
  {| params := params gen_two ++ map (fun te => GPType te [ident_path "Trait"]) (tuple_idents 2);
     where_clause := where_clause gen_two |} /\
  NoDup (type_params (add_tuple_element_generics (tuple_idents 2) (ident_path "Trait") gen_two)).
Proof.
  split; [|split].
  - apply (proj1 (add_tuple_element_generics_paths (tuple_idents 2) (ident_path "Trait") gen_one_declared)).
    exists "TupleElement0"%string. split; vm_compute; left; reflexivity.
  - apply (proj1 (proj2 (add_tuple_element_generics_paths (tuple_idents 2) (ident_path "Trait") gen_two))).
    intros te H. vm_compute in H. vm_compute. intros [E|[]].
    destruct H as [<-|[<-|[]]]; discriminate E.
  - apply (proj2 (proj2 (add_tuple_element_generics_paths (tuple_idents 2) (ident_path "Trait") gen_two))).
    + vm_compute. constructor; [intros [E|[]]; discriminate E|].
      constructor; [intros []|constructor].
    + vm_compute. constructor; [intros []|constructor].
Defined.

(** ** C9 *)

(** C9: whatever the template and the count, no generated implementation
    is for the tuple of exactly one element. *)
Theorem no_arity_one_impl (t : ItemImpl) (c : LitInt) (l : list ItemImpl) :
  impl_for_tuples_impl (Semi t) c = Ok l ->
  Forall (fun it => impl_arity it <> Some 1) l.
Proof.
  intros H. apply Forall_forall. intros it Hin.
  pose proof (emitted_arities_of_count t c l H) as Hm.
  assert (Hi : In (impl_arity it) (map Some (filter (fun i => negb (Nat.eqb i 1)) (seq 0 (lit_value c)))))
    by (rewrite <- Hm; apply in_map; exact Hin).
  apply in_map_iff in Hi. destruct Hi as [i [Ei Hf]].
  apply filter_In in Hf. destruct Hf as [_ Hne].
  rewrite <- Ei. intros E. injection E as ->. discriminate Hne.
Qed.

Lemma no_arity_one_impl_witness :
  impl_for_tuples_impl (Semi tmpl_return_type) (count_lit 4) = Ok c9_output /\
  Forall (fun it => impl_arity it <> Some 1) c9_output.
Proof.
  assert (H : impl_for_tuples_impl (Semi tmpl_return_type) (count_lit 4) = Ok c9_output)
    by (vm_compute; reflexivity).
  split; [exact H | exact (no_arity_one_impl tmpl_return_type (count_lit 4) c9_output H)].
Defined.

(** ** C10 *)

(** C10: a macro whose path is not the single identifier [for_tuples] is not
    a repetition marker: [try_from] yields no marker and no diagnostic, and
    at item, statement, expression and type position the rewriter returns the
    invocation unchanged, token body included, with no diagnostic. *)
Theorem other_macros_left_untouched (m : Macro) (tuples : list Ident) (ph : Ident) (hs : bool) :
  is_ident (mac_path m) "for_tuples" = false ->
  try_from m = Ok None /\
  to_impl_item tuples ph (IIMacro m) = (IIMacro m, []) /\
  to_stmt tuples ph hs (SSemi (EMacro m)) = (SSemi (EMacro m), []) /\
  to_stmt tuples ph hs (SExpr (EMacro m)) = (SExpr (EMacro m), []) /\
  to_expr tuples ph hs (EMacro m) = (EMacro m, []) /\
  to_ty tuples ph (TyMacro m) = (TyMacro m, []).
Proof.
  intros Hn.
  assert (Ht : try_from m = Ok None) by (unfold try_from; rewrite Hn; reflexivity).
  split; [exact Ht|].
  cbn [to_impl_item to_stmt to_expr to_ty stmt_expr_case]. rewrite Ht.
  repeat split.
Qed.

Lemma other_macros_left_untouched_witness :
  try_from println_macro = Ok None /\
  to_impl_item (tuple_idents 2) "Tuple" (IIMacro println_macro) = (IIMacro println_macro, []) /\
  to_stmt (tuple_idents 2) "Tuple" true (SSemi (EMacro println_macro)) =
    (SSemi (EMacro println_macro), []) /\
  to_stmt (tuple_idents 2) "Tuple" true (SExpr (EMacro println_macro)) =
    (SExpr (EMacro println_macro), []) /\
  to_expr (tuple_idents 2) "Tuple" true (EMacro println_macro) = (EMacro println_macro, []) /\
  to_ty (tuple_idents 2) "Tuple" (TyMacro println_macro) = (TyMacro println_macro, []).
Proof.
  apply (other_macros_left_untouched println_macro (tuple_idents 2) "Tuple" true).
  vm_compute. reflexivity.
Defined.

(** * Further properties of the code *)


(** ** The writer folds *)

Lemma map_w_snd_cons {A} (f : A -> A * list Error) (x : A) (l : list A) :
  snd (map_w f (x :: l)) = snd (f x) ++ snd (map_w f l).
Proof. cbn. destruct (f x), (map_w f l). reflexivity. Qed.

Lemma marker_errors_app (l1 l2 : list Macro) :
  marker_errors (l1 ++ l2) = marker_errors l1 ++ marker_errors l2.
Proof. unfold marker_errors. apply flat_map_app. Qed.

Lemma map_w_errs {A} (f : A -> A * list Error) (g : A -> list Macro) (l : list A) :
  list_all A (fun a => snd (f a) = marker_errors (g a)) l ->
  snd (map_w f l) = marker_errors (flat_map g l).
Proof.
  induction 1 as [|a Ha l _ IH]; [reflexivity|].
  rewrite map_w_snd_cons. cbn [flat_map]. rewrite marker_errors_app, Ha, IH. reflexivity.
Qed.

Lemma map_w_errs' {A} (f : A -> A * list Error) (g : A -> list Macro) (l : list A) :
  (forall a, snd (f a) = marker_errors (g a)) ->
  snd (map_w f l) = marker_errors (flat_map g l).
Proof. intros H. apply map_w_errs. induction l; constructor; auto. Qed.

Lemma no_marker_app (l1 l2 : list Macro) :
  no_marker (l1 ++ l2) = no_marker l1 && no_marker l2.
Proof. unfold no_marker. apply forallb_app. Qed.

Lemma map_w_id {A} (f : A -> A * list Error) (g : A -> list Macro) (l : list A) :
  list_all A (fun a => no_marker (g a) = true -> f a = (a, [])) l ->
  no_marker (flat_map g l) = true -> map_w f l = (l, []).
Proof.
  induction 1 as [|a Ha l _ IH]; intros H; [reflexivity|].
  cbn [flat_map] in H. rewrite no_marker_app in H. apply andb_prop in H as [H1 H2].
  cbn. rewrite (Ha H1), (IH H2). reflexivity.
Qed.

Lemma map_w_id' {A} (f : A -> A * list Error) (g : A -> list Macro) (l : list A) :
  (forall a, no_marker (g a) = true -> f a = (a, [])) ->
  no_marker (flat_map g l) = true -> map_w f l = (l, []).
Proof. intros H. apply map_w_id. induction l; constructor; auto. Qed.

Lemma try_from_not_marker (m : Macro) :
  no_marker [m] = true -> try_from m = Ok None.
Proof.
  unfold no_marker. cbn. rewrite andb_true_r. intros H.
  unfold try_from. rewrite H. reflexivity.
Qed.

Section RewriteErrors.
Variable tuples : list Ident.
Variable ph : Ident.

Lemma to_ty_errs (t : Ty) : snd (to_ty tuples ph t) = marker_errors (vis_ty t).
Proof.
  induction t as [p|ts IH|m|ts] using Ty_ind; cbn [to_ty vis_ty].
  - reflexivity.
  - assert (IH' : list_all Ty (fun a => snd (to_ty tuples ph a) = marker_errors (vis_ty a)) ts)
      by (induction IH; constructor; auto).
    pose proof (map_w_errs _ _ _ IH') as H. destruct (map_w (to_ty tuples ph) ts). exact H.
  - unfold marker_errors. cbn. rewrite app_nil_r. unfold err_of.
    destruct (try_from m) as [[ft|]|e]; reflexivity.
  - reflexivity.
Qed.

Lemma to_ty_id (t : Ty) : no_marker (vis_ty t) = true -> to_ty tuples ph t = (t, []).
Proof.
  induction t as [p|ts IH|m|ts] using Ty_ind; cbn [to_ty vis_ty].
  - reflexivity.
  - assert (IH' : list_all Ty (fun a => no_marker (vis_ty a) = true -> to_ty tuples ph a = (a, [])) ts)
      by (induction IH; constructor; auto).
    intros H. rewrite (map_w_id _ _ _ IH' H). reflexivity.
  - intros H. rewrite (try_from_not_marker m H). reflexivity.
  - reflexivity.
Qed.

Lemma stmt_expr_case_errs (hs : bool) (e : Expr) (semi : bool) :
  snd (stmt_expr_case tuples ph hs e (to_expr tuples ph hs e) semi) =
  match e with EMacro m => marker_errors [m] | _ => snd (to_expr tuples ph hs e) end.
Proof.
  destruct e; cbn [stmt_expr_case]; try (destruct (to_expr tuples ph hs _); reflexivity).
  unfold marker_errors. cbn. rewrite app_nil_r. unfold err_of.
  destruct (try_from m) as [[ft|]|err]; reflexivity.
Qed.

Lemma stmt_expr_case_id (hs : bool) (e : Expr) (semi : bool) :
  (match e with EMacro m => no_marker [m] = true | _ => to_expr tuples ph hs e = (e, []) end) ->
  stmt_expr_case tuples ph hs e (to_expr tuples ph hs e) semi =
  ((if semi then SSemi e else SExpr e), []).
Proof.
  destruct e; cbn [stmt_expr_case]; intros H;
    try (rewrite H; reflexivity).
  rewrite (try_from_not_marker m H). reflexivity.
Qed.

Lemma to_stmt_expr_errs (hs : bool) :
  (forall s, snd (to_stmt tuples ph hs s) = marker_errors (vis_stmt s)) /\
  (forall e, snd (to_expr tuples ph hs e) = marker_errors (vis_expr e)).
Proof.
  apply StmtExpr_mut.
  - intros pat init Hinit. simpl to_stmt; simpl vis_stmt.
    destruct Hinit as [e He|]; cbn [option_w]; [|reflexivity].
    destruct (to_expr tuples ph hs e). exact He.
  - intros e He. simpl to_stmt. rewrite stmt_expr_case_errs.
    destruct e; simpl vis_stmt; try exact He; reflexivity.
  - intros e He. simpl to_stmt. rewrite stmt_expr_case_errs.
    destruct e; simpl vis_stmt; try exact He; reflexivity.
  - reflexivity.
  - intros f Hf args Hargs. simpl to_expr; simpl vis_expr.
    pose proof (map_w_errs _ _ _ Hargs) as H.
    destruct (to_expr tuples ph hs f), (map_w (to_expr tuples ph hs) args).
    cbn in *. rewrite marker_errors_app, Hf, H. reflexivity.
  - intros r Hr m tf args Hargs. simpl to_expr; simpl vis_expr.
    pose proof (map_w_errs _ _ _ Hargs) as H.
    pose proof (map_w_errs' (to_ty tuples ph) vis_ty tf to_ty_errs) as Ht.
    destruct (to_expr tuples ph hs r), (map_w (to_ty tuples ph) tf),
      (map_w (to_expr tuples ph hs) args).
    cbn in *. rewrite !marker_errors_app, Hr, Ht, H. reflexivity.
  - intros b Hb mem. simpl to_expr; simpl vis_expr. destruct (to_expr tuples ph hs b). exact Hb.
  - intros es Hes. simpl to_expr; simpl vis_expr.
    pose proof (map_w_errs _ _ _ Hes) as H. destruct (map_w (to_expr tuples ph hs) es). exact H.
  - intros e He. simpl to_expr; simpl vis_expr. destruct (to_expr tuples ph hs e). exact He.
  - intros ss Hss. simpl to_expr; simpl vis_expr.
    pose proof (map_w_errs _ _ _ Hss) as H. destruct (map_w (to_stmt tuples ph hs) ss). exact H.
  - reflexivity.
  - reflexivity.
  - reflexivity.
Qed.

Lemma to_stmt_expr_id (hs : bool) :
  (forall s, no_marker (vis_stmt s) = true -> to_stmt tuples ph hs s = (s, [])) /\
  (forall e, no_marker (vis_expr e) = true -> to_expr tuples ph hs e = (e, [])).
Proof.
  apply StmtExpr_mut.
  - intros pat init Hinit. simpl to_stmt; simpl vis_stmt. intros H.
    destruct Hinit as [e He|]; cbn [option_w]; [|reflexivity].
    rewrite (He H). reflexivity.
  - intros e He H. simpl to_stmt. apply stmt_expr_case_id.
    destruct e; simpl vis_stmt in H; try exact H; apply He, H.
  - intros e He H. simpl to_stmt. apply stmt_expr_case_id.
    destruct e; simpl vis_stmt in H; try exact H; apply He, H.
  - reflexivity.
  - intros f Hf args Hargs H. simpl to_expr; simpl vis_expr in *.
    rewrite no_marker_app in H. apply andb_prop in H as [H1 H2].
    rewrite (Hf H1), (map_w_id _ _ _ Hargs H2). reflexivity.
  - intros r Hr m tf args Hargs H. simpl to_expr; simpl vis_expr in *.
    rewrite !no_marker_app in H. apply andb_prop in H as [H1 H2]. apply andb_prop in H2 as [H2 H3].
    rewrite (Hr H1), (map_w_id' (to_ty tuples ph) vis_ty tf to_ty_id H2),
      (map_w_id _ _ _ Hargs H3). reflexivity.
  - intros b Hb mem H. simpl to_expr; simpl vis_expr in *. rewrite (Hb H). reflexivity.
  - intros es Hes H. simpl to_expr; simpl vis_expr in *. rewrite (map_w_id _ _ _ Hes H). reflexivity.
  - intros e He H. simpl to_expr; simpl vis_expr in *. rewrite (He H). reflexivity.
  - intros ss Hss H. simpl to_expr; simpl vis_expr in *. rewrite (map_w_id _ _ _ Hss H). reflexivity.
  - reflexivity.
  - reflexivity.
  - reflexivity.
Qed.

Lemma to_fn_arg_errs (a : FnArg) : snd (to_fn_arg tuples ph a) = marker_errors (vis_fn_arg a).
Proof.
  destruct a as [|pat ty]; [reflexivity|]. cbn [to_fn_arg vis_fn_arg].
  pose proof (to_ty_errs ty) as H. destruct (to_ty tuples ph ty). exact H.
Qed.

Lemma to_signature_errs (sg : Signature) :
  snd (to_signature tuples ph sg) = marker_errors (vis_signature sg).
Proof.
  unfold to_signature, vis_signature.
  pose proof (map_w_errs' _ _ (sig_inputs sg) to_fn_arg_errs) as H1.
  destruct (map_w (to_fn_arg tuples ph) (sig_inputs sg)).
  destruct (sig_output sg) as [ty|]; cbn [option_w].
  - pose proof (to_ty_errs ty) as H2. destruct (to_ty tuples ph ty). cbn in *.
    rewrite marker_errors_app, H1, H2. reflexivity.
  - cbn in *. rewrite app_nil_r, H1, app_nil_r. reflexivity.
Qed.

Lemma to_impl_item_errs (i : ImplItem) :
  snd (to_impl_item tuples ph i) = marker_errors (vis_impl_item i).
Proof.
  destruct i as [sg block|name ty|m|ts]; cbn [to_impl_item vis_impl_item].
  - pose proof (to_signature_errs sg) as H1.
    pose proof (map_w_errs' _ _ block (proj1 (to_stmt_expr_errs (has_receiver sg)))) as H2.
    destruct (to_signature tuples ph sg), (map_w (to_stmt tuples ph (has_receiver sg)) block).
    cbn in *. rewrite marker_errors_app, H1, H2. reflexivity.
  - pose proof (to_ty_errs ty) as H. destruct (to_ty tuples ph ty). exact H.
  - unfold marker_errors. cbn. rewrite app_nil_r. unfold err_of.
    destruct (try_from m) as [[ft|]|e]; reflexivity.
  - reflexivity.
Qed.

Lemma to_generics_errs (g : Generics) :
  snd (to_generics tuples ph g) = marker_errors (vis_generics g).
Proof.
  unfold to_generics, vis_generics.
  assert (Hp : forall p, snd (to_generic_param tuples ph p) = marker_errors (vis_generic_param p)).
  { intros [n b|n|n ty]; try reflexivity. cbn [to_generic_param vis_generic_param].
    pose proof (to_ty_errs ty) as H. destruct (to_ty tuples ph ty). exact H. }
  assert (Hw : forall w, snd (to_where_predicate tuples ph w) = marker_errors (vis_ty (bounded_ty w))).
  { intros w. unfold to_where_predicate.
    pose proof (to_ty_errs (bounded_ty w)) as H. destruct (to_ty tuples ph (bounded_ty w)). exact H. }
  pose proof (map_w_errs' _ _ (params g) Hp) as H1.
  destruct (map_w (to_generic_param tuples ph) (params g)).
  destruct (where_clause g) as [w|]; cbn [option_w].
  - pose proof (map_w_errs' _ (fun p => vis_ty (bounded_ty p)) w Hw) as H2.
    destruct (map_w (to_where_predicate tuples ph) w). cbn in *.
    rewrite marker_errors_app, H1, H2. reflexivity.
  - cbn in *. rewrite H1, !app_nil_r. reflexivity.
Qed.

Lemma to_item_impl_fields (t : ItemImpl) :
  let r := fst (to_item_impl tuples ph t) in
  impl_attrs r = impl_attrs t /\ impl_trait r = impl_trait t /\ impl_span r = impl_span t /\
  items r = fst (map_w (to_impl_item tuples ph) (items t)) /\
  impl_generics r = fst (to_generics tuples ph (impl_generics t)).
Proof.
  unfold to_item_impl.
  destruct (to_generics tuples ph (impl_generics t)), (to_ty tuples ph (self_ty t)),
    (map_w (to_impl_item tuples ph) (items t)).
  cbn. repeat split.
Qed.
End RewriteErrors.

Section RewriteIdentity.
Variable tuples : list Ident.
Variable ph : Ident.

Lemma to_signature_id (sg : Signature) :
  no_marker (vis_signature sg) = true -> to_signature tuples ph sg = (sg, []).
Proof.
  destruct sg as [name inputs output]. unfold to_signature, vis_signature. cbn [sig_inputs sig_output].
  intros H. rewrite no_marker_app in H. apply andb_prop in H as [H1 H2].
  assert (Ha : forall a, no_marker (vis_fn_arg a) = true -> to_fn_arg tuples ph a = (a, [])).
  { intros [|pat ty] Hty; [reflexivity|]. cbn [to_fn_arg]. rewrite (to_ty_id tuples ph ty Hty). reflexivity. }
  rewrite (map_w_id' _ _ _ Ha H1).
  destruct output as [ty|]; cbn [option_w]; [rewrite (to_ty_id tuples ph ty H2)|]; reflexivity.
Qed.

Lemma to_impl_item_id (i : ImplItem) :
  no_marker (vis_impl_item i) = true -> to_impl_item tuples ph i = (i, []).
Proof.
  destruct i as [sg block|name ty|m|ts]; cbn [to_impl_item vis_impl_item]; intros H.
  - rewrite no_marker_app in H. apply andb_prop in H as [H1 H2].
    rewrite (to_signature_id sg H1).
    rewrite (map_w_id' _ _ _ (proj1 (to_stmt_expr_id tuples ph (has_receiver sg))) H2).
    reflexivity.
  - rewrite (to_ty_id tuples ph ty H). reflexivity.
  - rewrite (try_from_not_marker m H). reflexivity.
  - reflexivity.
Qed.

Lemma to_generics_id (g : Generics) :
  no_marker (vis_generics g) = true -> to_generics tuples ph g = (g, []).
Proof.
  destruct g as [ps wc]. unfold to_generics, vis_generics. cbn [params where_clause].
  intros H. rewrite no_marker_app in H. apply andb_prop in H as [H1 H2].
  assert (Hp : forall p, no_marker (vis_generic_param p) = true -> to_generic_param tuples ph p = (p, [])).
  { intros [n b|n|n ty] Hty; try reflexivity. cbn [to_generic_param].
    rewrite (to_ty_id tuples ph ty Hty). reflexivity. }
  rewrite (map_w_id' _ _ _ Hp H1).
  destruct wc as [w|]; cbn [option_w]; [|reflexivity].
  assert (Hw : forall p, no_marker (vis_ty (bounded_ty p)) = true -> to_where_predicate tuples ph p = (p, [])).
  { intros [bt pb] Hty. unfold to_where_predicate. cbn [bounded_ty pred_bounds] in *.
    rewrite (to_ty_id tuples ph bt Hty). reflexivity. }
  rewrite (map_w_id' _ (fun p => vis_ty (bounded_ty p)) _ Hw H2). reflexivity.
Qed.

Lemma to_item_impl_id (t : ItemImpl) :
  no_marker (vis_item_impl t) = true -> to_item_impl tuples ph t = (t, []).
Proof.
  unfold vis_item_impl. intros H. rewrite !no_marker_app in H.
  apply andb_prop in H as [H1 H2]. apply andb_prop in H2 as [H2 H3].
  unfold to_item_impl. rewrite (to_generics_id _ H1), (to_ty_id tuples ph _ H2),
    (map_w_id' _ _ _ to_impl_item_id H3).
  destruct t; reflexivity.
Qed.

Lemma to_item_impl_errs (t : ItemImpl) :
  snd (to_item_impl tuples ph t) = marker_errors (vis_item_impl t).
Proof.
  unfold to_item_impl, vis_item_impl.
  pose proof (to_generics_errs tuples ph (impl_generics t)) as H1.
  pose proof (to_ty_errs tuples ph (self_ty t)) as H2.
  pose proof (map_w_errs' _ _ (items t) (to_impl_item_errs tuples ph)) as H3.
  destruct (to_generics tuples ph (impl_generics t)), (to_ty tuples ph (self_ty t)),
    (map_w (to_impl_item tuples ph) (items t)).
  cbn in *. rewrite !marker_errors_app, H1, H2, H3. reflexivity.
Qed.

(** Folding the generic parameters never changes the names of the type
    parameters. *)
Lemma to_generics_type_params (g : Generics) :
  type_params (fst (to_generics tuples ph g)) = type_params g.
Proof.
  destruct g as [ps wc]. unfold to_generics, type_params. cbn [params where_clause].
  destruct (option_w (map_w (to_where_predicate tuples ph)) wc).
  assert (H : forall ps, flat_map (fun p => match p with GPType n _ => [n] | _ => [] end)
                           (fst (map_w (to_generic_param tuples ph) ps)) =
                         flat_map (fun p => match p with GPType n _ => [n] | _ => [] end) ps).
  { induction ps0 as [|p ps0 IH]; [reflexivity|].
    cbn [map_w]. destruct (to_generic_param tuples ph p) as [p' e] eqn:E.
    destruct (map_w (to_generic_param tuples ph) ps0) as [ps' e'] eqn:E'.
    cbn in *. rewrite IH.
    destruct p as [n b|n|n ty]; cbn in E; try (injection E as <- _; reflexivity).
    destruct (to_ty tuples ph ty). injection E as <- _. reflexivity. }
  pose proof (H ps) as Hps. destruct (map_w (to_generic_param tuples ph) ps). exact Hps.
Qed.
End RewriteIdentity.

(** ** Merging the diagnostics of one arity *)

Lemma fold_combine (rest : list Error) (f : Error) :
  fold_left combine rest f = f ++ concat rest.
Proof.
  revert f. induction rest as [|e rest IH]; intros f; cbn.
  - rewrite app_nil_r. reflexivity.
  - rewrite IH. unfold combine. rewrite app_assoc. reflexivity.
Qed.

Lemma vec_pop_nonempty {A} (l : list A) (d : A) :
  l <> [] -> vec_pop l = Some (last l d, removelast l).
Proof.
  intros H. unfold vec_pop. pose proof (app_removelast_last (l:=l) d H) as E.
  rewrite E at 1. rewrite rev_app_distr. cbn. rewrite rev_involutive. reflexivity.
Qed.

Lemma generate_implementation_cases (t : ItemImpl) (ph : Ident) (tuples : list Ident) :
  (impl_trait t = None ->
     generate_implementation t ph tuples = Err (error_new (impl_span t) missing_trait_msg)) /\
  (forall tr, impl_trait t = Some tr ->
     (marker_errors (vis_item_impl t) = [] ->
        generate_implementation t ph tuples =
        Ok (set_self_ty_attrs
              (set_generics (fst (to_item_impl tuples ph t))
                 (add_tuple_element_generics tuples tr (fst (to_generics tuples ph (impl_generics t)))))
              (tuple_type tuples) (impl_attrs t ++ ["allow(unused)"%string]))) /\
     (marker_errors (vis_item_impl t) <> [] ->
        generate_implementation t ph tuples =
        Err (last (marker_errors (vis_item_impl t)) [] ++
             concat (removelast (marker_errors (vis_item_impl t)))))).
Proof.
  pose proof (to_item_impl_fields tuples ph t) as F. cbv zeta in F.
  destruct F as [Ha [Htr [Hsp [_ Hg]]]].
  pose proof (to_item_impl_errs tuples ph t) as He.
  unfold generate_implementation.
  destruct (to_item_impl tuples ph t) as [res errs]. cbn [fst snd] in *. cbv beta iota zeta.
  unfold add_tuple_elements_generics. rewrite Htr. split.
  - intros Hn. rewrite Hn, Hsp. reflexivity.
  - intros tr Htr'. rewrite Htr'. cbn [bind]. subst errs. split.
    + intros H0. rewrite H0. cbn [vec_pop rev]. rewrite <- Hg, <- Ha. reflexivity.
    + intros Hne. rewrite (vec_pop_nonempty (A := Error) _ [] Hne), fold_combine. reflexivity.
Qed.

Lemma generate_implementation_generics (t : ItemImpl) (ph : Ident) (tuples : list Ident)
    (r : ItemImpl) :
  generate_implementation t ph tuples = Ok r ->
  exists tr, impl_trait t = Some tr /\ marker_errors (vis_item_impl t) = [] /\
    impl_generics r = add_tuple_element_generics tuples tr (fst (to_generics tuples ph (impl_generics t))) /\
    self_ty r = tuple_type tuples.
Proof.
  destruct (generate_implementation_cases t ph tuples) as [Hn Hs].
  destruct (impl_trait t) as [tr|] eqn:Htr; [|rewrite (Hn eq_refl); discriminate].
  destruct (Hs tr eq_refl) as [Hok Herr].
  destruct (marker_errors (vis_item_impl t)) as [|e es] eqn:Em.
  - rewrite (Hok eq_refl). intros H. injection H as <-.
    exists tr. repeat split.
  - rewrite Herr by discriminate. discriminate.
Qed.

(** ** The tuple element identifiers *)

Lemma string_app_cancel (p s1 s2 : string) : (p ++ s1 = p ++ s2)%string -> s1 = s2.
Proof. induction p as [|c p IH]; cbn; [auto|]. intros H. injection H. exact IH. Qed.

Lemma to_uint_nonnil (n : nat) : Nat.to_uint n <> Decimal.Nil.
Proof.
  intros H. pose proof (DecimalNat.Unsigned.of_to n) as E. rewrite H in E.
  cbn in E. subst n. discriminate H.
Qed.

Lemma generate_tuple_element_ident_inj (a b : nat) :
  generate_tuple_element_ident a = generate_tuple_element_ident b -> a = b.
Proof.
  unfold generate_tuple_element_ident. intros H. apply string_app_cancel in H.
  assert (E : NilZero.uint_of_string (NilZero.string_of_uint (Nat.to_uint a)) =
              NilZero.uint_of_string (NilZero.string_of_uint (Nat.to_uint b))) by (rewrite H; reflexivity).
  rewrite !NilZero.usu in E by apply to_uint_nonnil.
  injection E as E.
  rewrite <- (DecimalNat.Unsigned.of_to a), <- (DecimalNat.Unsigned.of_to b), E. reflexivity.
Qed.

Lemma tuple_idents_nodup (n : nat) : NoDup (tuple_idents n).
Proof.
  unfold tuple_idents. pose proof (seq_NoDup n 0) as H.
  induction H as [|a l Ha _ IH]; constructor; [|exact IH].
  intros Hin. apply in_map_iff in Hin as [b [E Hb]].
  apply generate_tuple_element_ident_inj in E. subst b. contradiction.
Qed.

Lemma firstn_tuple_idents (i n : nat) : i <= n -> firstn i (tuple_idents n) = tuple_idents i.
Proof.
  intros H. unfold tuple_idents. rewrite firstn_map. f_equal.
  replace n with (i + (n - i)) by lia. rewrite seq_app, firstn_app, length_seq, Nat.sub_diag.
  cbn [firstn]. rewrite app_nil_r. apply firstn_all2. rewrite length_seq. lia.
Qed.

Lemma arities_tuple_idents (n : nat) :
  arities (tuple_idents n) = filter (fun i => negb (Nat.eqb i 1)) (seq 0 n).
Proof. unfold arities, tuple_idents. rewrite length_map, length_seq. reflexivity. Qed.

(** ** The arity loop, arity by arity *)

Lemma try_for_each_arity_ok2 (t : ItemImpl) (ph : Ident) (elems : list Ident) (is : list nat) :
  forall res att l,
  try_for_each_arity t ph elems is res = (att, Ok l) ->
  exists rs, l = res ++ rs /\
    Forall2 (fun r i => generate_implementation t ph (firstn i elems) = Ok r) rs is.
Proof.
  induction is as [|i rest IH]; intros res att l H; cbn in H.
  - injection H as _ <-. exists []. rewrite app_nil_r. split; [reflexivity|constructor].
  - destruct (generate_implementation t ph (firstn i elems)) as [r|e] eqn:G; [|discriminate].
    destruct (try_for_each_arity t ph elems rest (res ++ [r])) as [att' out] eqn:E.
    injection H as _ ->.
    destruct (IH _ _ _ E) as [rs [-> Hm]].
    exists (r :: rs). split; [rewrite <- app_assoc; reflexivity|]. constructor; assumption.
Qed.

Lemma try_for_each_arity_app (t : ItemImpl) (ph : Ident) (elems : list Ident) (is1 is2 : list nat) :
  forall res,
  snd (try_for_each_arity t ph elems (is1 ++ is2) res) =
  match snd (try_for_each_arity t ph elems is1 res) with
  | Ok r1 => snd (try_for_each_arity t ph elems is2 r1)
  | Err e => Err e
  end.
Proof.
  induction is1 as [|i rest IH]; intros res; [reflexivity|].
  cbn [app try_for_each_arity].
  destruct (generate_implementation t ph (firstn i elems)) as [r|e]; [|reflexivity].
  specialize (IH (res ++ [r])).
  destruct (try_for_each_arity t ph elems (rest ++ is2) (res ++ [r])).
  destruct (try_for_each_arity t ph elems rest (res ++ [r])). exact IH.
Qed.

Lemma try_for_each_arity_ext (t : ItemImpl) (ph : Ident) (e1 e2 : list Ident) (is : list nat) :
  (forall i, In i is -> firstn i e1 = firstn i e2) ->
  forall res, try_for_each_arity t ph e1 is res = try_for_each_arity t ph e2 is res.
Proof.
  induction is as [|i rest IH]; intros H res; [reflexivity|].
  cbn [try_for_each_arity]. rewrite (H i (or_introl eq_refl)).
  destruct (generate_implementation t ph (firstn i e2)); [|reflexivity].
  rewrite IH by (intros j Hj; apply H; right; exact Hj). reflexivity.
Qed.

(** ** Parsing the three forms of a [for_tuples!] body *)

Lemma parse_within_cons (sp : nat) (s : Stmt) (rest : list Token) :
  parse_within sp (TkStmt s :: rest) =
  match s, rest with
  | SExpr e, _ :: _ =>
      if requires_terminator e then perr sp "unexpected token"
      else let* ss := parse_within sp rest in Ok (s :: ss)
  | _, _ => let* ss := parse_within sp rest in Ok (s :: ss)
  end.
Proof. reflexivity. Qed.

Lemma parse_within_map (sp : nat) (ss : list Stmt) :
  stmts_terminated ss = true -> parse_within sp (map TkStmt ss) = Ok ss.
Proof.
  induction ss as [|s ss IH]; intros H; [reflexivity|].
  cbn [map]. rewrite parse_within_cons.
  destruct s as [pat init|e|e]; [| destruct ss as [|s' ss'] |].
  - cbn in H. rewrite (IH H). reflexivity.
  - reflexivity.
  - cbn [stmts_terminated] in H. apply andb_prop in H as [H1 H2].
    apply negb_true_iff in H1. rewrite H1.
    pose proof (IH H2) as E. cbn [map] in E |- *. rewrite E. reflexivity.
  - cbn in H. rewrite (IH H). reflexivity.
Qed.

Lemma parse_for_tuples_tokens (sp : nat) (ft : ForTuplesMacro) (rest : list Token) :
  (match ft with FTItem x _ => is_keyword x = false | _ => True end) ->
  stmts_terminated (stmts (ft_repetition ft)) = true ->
  parse_for_tuples sp (for_tuples_tokens ft ++ rest) = Ok (ft, false, rest).
Proof.
  destruct ft as [x [ss c]|[ss c]|[ss c]]; intros Hk Ht; cbn [ft_repetition stmts] in Ht; destruct c;
    cbn -[parse_within is_keyword];
    [rewrite Hk; cbn -[parse_within] .. | | | |]; rewrite (parse_within_map _ _ Ht); reflexivity.
Qed.

(** ** Generic parameters *)

Lemma add_generics_nodup (tes : list Ident) (bounds : Path) (g : Generics) :
  NoDup tes -> NoDup (type_params g) ->
  NoDup (type_params (add_tuple_element_generics tes bounds g)).
Proof.
  intros Ht Hg. destruct g as [ps wc].
  unfold add_tuple_element_generics.
  destruct (existsb (fun t => existsb (fun t2 => String.eqb t2 t) tes)
              (type_params {| params := ps; where_clause := wc |})) eqn:E.
  - destruct tes as [|te0 tes]; [exact Hg|].
    cbn [fold_left]. unfold push_where_predicate at 2. cbn [params where_clause].
    rewrite fold_where_some. exact Hg.
  - rewrite fold_push_param, type_params_append. apply NoDup_app; [exact Hg|exact Ht|].
    intros a Ha Hb.
    assert (E' : exists te, In te tes /\ In te (type_params {| params := ps; where_clause := wc |}))
      by (exists a; split; assumption).
    apply declared_test in E'. rewrite E in E'. discriminate.
Qed.

Lemma parse_rep_tokens (sp : nat) (r : TupleRepetition) (rest : list Token) :
  stmts_terminated (stmts r) = true ->
  parse_tuple_repetition sp (repetition_tokens r ++ rest) = Ok (r, rest).
Proof.
  destruct r as [ss c]; intros Ht; cbn [stmts] in Ht; destruct c; cbn -[parse_within];
    rewrite (parse_within_map _ _ Ht); reflexivity.
Qed.

Lemma emitted_impls_spec (t : ItemImpl) (c : LitInt) (l : list ItemImpl) :
  impl_for_tuples_impl (Semi t) c = Ok l ->
  exists ph, extract_tuple_placeholder_ident t = Ok ph /\
    Forall2 (fun it i => generate_implementation t ph (tuple_idents i) = Ok it)
      l (filter (fun i => negb (Nat.eqb i 1)) (seq 0 (lit_value c))).
Proof.
  intros H. apply impl_for_tuples_impl_ok in H. revert H.
  generalize (lit_value c) as n. intros n.
  unfold semi_automatic_impl, semi_automatic_run.
  change (map generate_tuple_element_ident (seq 0 n)) with (tuple_idents n).
  destruct (extract_tuple_placeholder_ident t) as [ph|e]; [|discriminate].
  destruct (try_for_each_arity t ph (tuple_idents n) (arities (tuple_idents n)) []) as [att out] eqn:E.
  cbn [snd]. intros ->. exists ph. split; [reflexivity|].
  destruct (try_for_each_arity_ok2 _ _ _ _ _ _ _ E) as [rs [-> Hf]].
  rewrite arities_tuple_idents in Hf. cbn [app].
  assert (Hlt : forall i, In i (filter (fun i => negb (Nat.eqb i 1)) (seq 0 n)) -> i <= n)
    by (intros i Hi; rewrite filter_In, in_seq in Hi; lia).
  assert (Hgen : forall rs0 is0, (forall i, In i is0 -> i <= n) ->
     Forall2 (fun r i => generate_implementation t ph (firstn i (tuple_idents n)) = Ok r) rs0 is0 ->
     Forall2 (fun it i => generate_implementation t ph (tuple_idents i) = Ok it) rs0 is0).
  { intros rs0 is0 Hl0 H0. revert Hl0.
    induction H0 as [|r i rs1 is1 Hr Hrs IH]; intros Hl0; constructor.
    - rewrite <- (firstn_tuple_idents i n) by (apply Hl0; left; reflexivity). exact Hr.
    - apply IH. intros j Hj. apply Hl0. right. exact Hj. }
  apply Hgen; assumption.
Qed.

(** ** Extra properties *)

(** The body of a [for_tuples!] marker in each of its three forms,
    [#( stmts )*] with or without the comma, [( #( stmts )* )] and
    [type Name = ( #( stmts )* );], is parsed back to that form with its
    statements and its separator; the item name must not be a keyword.  Any
    token after a complete form is rejected with "unexpected token"%string. *)
Theorem for_tuples_body_round_trip (sp : nat) (ft : ForTuplesMacro) :
  (match ft with FTItem x _ => is_keyword x = false | _ => True end) ->
  stmts_terminated (stmts (ft_repetition ft)) = true ->
  parse2_for_tuples sp (for_tuples_tokens ft) = Ok ft /\
  try_from (MkMacro (ident_path "for_tuples"%string) (for_tuples_tokens ft) sp) = Ok (Some ft) /\
  (forall t rest, parse2_for_tuples sp (for_tuples_tokens ft ++ t :: rest) =
                  Err (error_new sp "unexpected token"%string)).
Proof.
  intros Hk Ht.
  assert (H0 : parse2_for_tuples sp (for_tuples_tokens ft) = Ok ft).
  { pose proof (parse_for_tuples_tokens sp ft [] Hk Ht) as H. rewrite app_nil_r in H.
    unfold parse2_for_tuples. rewrite H. reflexivity. }
  split; [exact H0|]. split.
  - unfold try_from, mac_path, mac_tokens, mac_span, is_ident, get_ident, ident_path.
    cbn -[parse2_for_tuples]. rewrite H0. reflexivity.
  - intros t rest. unfold parse2_for_tuples.
    rewrite (parse_for_tuples_tokens sp ft (t :: rest) Hk Ht). reflexivity.
Qed.

Lemma for_tuples_body_round_trip_witness :
  parse2_for_tuples 4 (for_tuples_tokens
    (FTItem "Ret"%string {| stmts := [SExpr (EPath (plain_path false ["Tuple"%string; "Ret"%string]))]; comma_token := true |}))
  = Ok (FTItem "Ret"%string {| stmts := [SExpr (EPath (plain_path false ["Tuple"%string; "Ret"%string]))]; comma_token := true |}) /\
  try_from (MkMacro (ident_path "for_tuples"%string) (for_tuples_tokens
    (FTItem "Ret"%string {| stmts := [SExpr (EPath (plain_path false ["Tuple"%string; "Ret"%string]))]; comma_token := true |})) 4)
  = Ok (Some (FTItem "Ret"%string {| stmts := [SExpr (EPath (plain_path false ["Tuple"%string; "Ret"%string]))]; comma_token := true |})) /\
  (forall t rest, parse2_for_tuples 4 (for_tuples_tokens
    (FTItem "Ret"%string {| stmts := [SExpr (EPath (plain_path false ["Tuple"%string; "Ret"%string]))]; comma_token := true |}) ++ t :: rest)
   = Err (error_new 4 "unexpected token"%string)).
Proof.
  apply (for_tuples_body_round_trip 4
           (FTItem "Ret"%string {| stmts := [SExpr (EPath (plain_path false ["Tuple"%string; "Ret"%string]))]; comma_token := true |})).
  - vm_compute. reflexivity.
  - vm_compute. reflexivity.
Defined.

(** Inside the parentheses of the parenthesized and the item forms, the
    repetition must be the whole content: any token after its [*] is
    rejected with "unexpected token"%string. *)
Theorem for_tuples_leftover_in_parens (sp : nat) (r : TupleRepetition) (x : Ident)
    (t : Token) (rest : list Token) :
  is_keyword x = false ->
  stmts_terminated (stmts r) = true ->
  parse2_for_tuples sp [TkGroup Paren (repetition_tokens r ++ t :: rest)] =
    Err (error_new sp "unexpected token"%string) /\
  parse2_for_tuples sp [TkIdent "type"%string; TkIdent x; TkPunct "="%string;
                        TkGroup Paren (repetition_tokens r ++ t :: rest); TkPunct ";"%string] =
    Err (error_new sp "unexpected token"%string).
Proof.
  intros Hk Ht. unfold parse2_for_tuples. split.
  - cbn -[parse_tuple_repetition repetition_tokens]. rewrite (parse_rep_tokens _ _ _ Ht). reflexivity.
  - cbn -[parse_tuple_repetition repetition_tokens is_keyword]. rewrite Hk.
    cbn -[parse_tuple_repetition repetition_tokens]. rewrite (parse_rep_tokens _ _ _ Ht). reflexivity.
Qed.

Lemma for_tuples_leftover_in_parens_witness :
  parse2_for_tuples 2 [TkGroup Paren (repetition_tokens {| stmts := []; comma_token := false |}
                                      ++ TkPunct ";"%string :: [])] =
    Err (error_new 2 "unexpected token"%string) /\
  parse2_for_tuples 2 [TkIdent "type"%string; TkIdent "Ret"%string; TkPunct "="%string;
                       TkGroup Paren (repetition_tokens {| stmts := []; comma_token := false |}
                                      ++ TkPunct ";"%string :: []); TkPunct ";"%string] =
    Err (error_new 2 "unexpected token"%string).
Proof.
  apply (for_tuples_leftover_in_parens 2 {| stmts := []; comma_token := false |} "Ret"%string
           (TkPunct ";"%string) []).
  - vm_compute. reflexivity.
  - vm_compute. reflexivity.
Defined.

(** The rewrite of a template collects exactly one diagnostic per malformed
    [for_tuples!] marker among the macros it hands to [try_from], in
    traversal order, and nothing else; they do not depend on the tuple
    identifiers or on the placeholder. *)
Theorem rewrite_diagnostics_per_marker (tuples : list Ident) (ph : Ident) (t : ItemImpl) :
  snd (to_item_impl tuples ph t) = marker_errors (vis_item_impl t).
Proof. apply to_item_impl_errs. Qed.

(** A template in which no macro handed to [try_from] is a [for_tuples!]
    marker is rewritten to itself with no diagnostic; with a trait, the
    implementation of every arity is the template with the tuple element
    generics added, the tuple type as self type and [#[allow(unused)]]
    appended to its attributes. *)
Theorem marker_free_template_copied (tuples : list Ident) (ph : Ident) (t : ItemImpl) (tr : Path) :
  no_marker (vis_item_impl t) = true ->
  to_item_impl tuples ph t = (t, []) /\
  (impl_trait t = Some tr ->
   generate_implementation t ph tuples =
   Ok (set_self_ty_attrs (set_generics t (add_tuple_element_generics tuples tr (impl_generics t)))
         (tuple_type tuples) (impl_attrs t ++ ["allow(unused)"%string]))).
Proof.
  intros H. pose proof (to_item_impl_id tuples ph t H) as Hid. split; [exact Hid|].
  intros Htr. unfold generate_implementation. rewrite Hid.
  unfold add_tuple_elements_generics. rewrite Htr. reflexivity.
Qed.

Lemma marker_free_template_copied_witness :
  to_item_impl (tuple_idents 2) "Tuple"%string
    (simple_impl "Trait"%string (TyPath (ident_path "Tuple"%string)) [IIMacro println_macro]) =
    (simple_impl "Trait"%string (TyPath (ident_path "Tuple"%string)) [IIMacro println_macro], []) /\
  generate_implementation (simple_impl "Trait"%string (TyPath (ident_path "Tuple"%string)) [IIMacro println_macro])
    "Tuple"%string (tuple_idents 2) =
  Ok (set_self_ty_attrs
        (set_generics (simple_impl "Trait"%string (TyPath (ident_path "Tuple"%string)) [IIMacro println_macro])
           (add_tuple_element_generics (tuple_idents 2) (ident_path "Trait"%string)
              (impl_generics (simple_impl "Trait"%string (TyPath (ident_path "Tuple"%string)) [IIMacro println_macro]))))
        (tuple_type (tuple_idents 2))
        (impl_attrs (simple_impl "Trait"%string (TyPath (ident_path "Tuple"%string)) [IIMacro println_macro])
         ++ ["allow(unused)"%string])).
Proof.
  destruct (marker_free_template_copied (tuple_idents 2) "Tuple"%string
              (simple_impl "Trait"%string (TyPath (ident_path "Tuple"%string)) [IIMacro println_macro])
              (ident_path "Trait"%string)) as [H1 H2].
  - vm_compute. reflexivity.
  - split; [exact H1|]. apply H2. reflexivity.
Defined.

(** The outcome of [generate_implementation] for one arity: without a
    trait it fails with the missing-trait diagnostic at the implementation,
    whatever the markers; with a trait, it succeeds exactly when the rewrite
    collected no diagnostic, giving the rewritten template with the tuple
    element generics, the tuple self type and [#[allow(unused)]]; otherwise
    it fails with the last diagnostic followed by all the others in order. *)
Theorem generate_implementation_outcome (t : ItemImpl) (ph : Ident) (tuples : list Ident) :
  (impl_trait t = None ->
     generate_implementation t ph tuples = Err (error_new (impl_span t) missing_trait_msg)) /\
  (forall tr, impl_trait t = Some tr ->
     (marker_errors (vis_item_impl t) = [] ->
        generate_implementation t ph tuples =
        Ok (set_self_ty_attrs
              (set_generics (fst (to_item_impl tuples ph t))
                 (add_tuple_element_generics tuples tr (fst (to_generics tuples ph (impl_generics t)))))
              (tuple_type tuples) (impl_attrs t ++ ["allow(unused)"%string]))) /\
     (marker_errors (vis_item_impl t) <> [] ->
        generate_implementation t ph tuples =
        Err (last (marker_errors (vis_item_impl t)) [] ++
             concat (removelast (marker_errors (vis_item_impl t)))))).
Proof. apply generate_implementation_cases. Qed.

Lemma generate_implementation_outcome_witness :
  generate_implementation tmpl_no_trait "Tuple"%string (tuple_idents 2) =
    Err (error_new (impl_span tmpl_no_trait) missing_trait_msg) /\
  generate_implementation tmpl_return_type "Tuple"%string (tuple_idents 2) =
    Ok (set_self_ty_attrs
          (set_generics (fst (to_item_impl (tuple_idents 2) "Tuple"%string tmpl_return_type))
             (add_tuple_element_generics (tuple_idents 2) (ident_path "TraitWithReturnType"%string)
                (fst (to_generics (tuple_idents 2) "Tuple"%string (impl_generics tmpl_return_type)))))
          (tuple_type (tuple_idents 2)) (impl_attrs tmpl_return_type ++ ["allow(unused)"%string])) /\
  generate_implementation tmpl_two_bad "Tuple"%string (tuple_idents 2) =
    Err (last (marker_errors (vis_item_impl tmpl_two_bad)) [] ++
         concat (removelast (marker_errors (vis_item_impl tmpl_two_bad)))).
Proof.
  split; [|split].
  - apply (proj1 (generate_implementation_outcome tmpl_no_trait "Tuple"%string (tuple_idents 2))).
    reflexivity.
  - apply (proj1 (proj2 (generate_implementation_outcome tmpl_return_type "Tuple"%string (tuple_idents 2))
                    (ident_path "TraitWithReturnType"%string) eq_refl)).
    vm_compute. reflexivity.
  - apply (proj2 (proj2 (generate_implementation_outcome tmpl_two_bad "Tuple"%string (tuple_idents 2))
                    (ident_path "Trait"%string) eq_refl)).
    vm_compute. discriminate.
Defined.

(** When an arity fails with a trait present, its reported error holds
    every diagnostic of every malformed marker of the template, each exactly
    once (as a permutation of their concatenation). *)
Theorem reported_error_has_every_diagnostic (t : ItemImpl) (ph : Ident) (tuples : list Ident)
    (e : Error) :
  impl_trait t <> None ->
  generate_implementation t ph tuples = Err e ->
  marker_errors (vis_item_impl t) <> [] /\ Permutation e (concat (marker_errors (vis_item_impl t))).
Proof.
  intros Htr He.
  destruct (impl_trait t) as [tr|] eqn:Et; [|contradiction].
  destruct (generate_implementation_cases t ph tuples) as [_ Hs].
  destruct (Hs tr Et) as [Hok Herr].
  destruct (marker_errors (vis_item_impl t)) as [|m ms] eqn:Em.
  - rewrite (Hok eq_refl) in He. discriminate.
  - split; [discriminate|].
    rewrite (Herr ltac:(discriminate)) in He. injection He as <-.
    assert (Hl : m :: ms = removelast (m :: ms) ++ [last (m :: ms) []])
      by (apply app_removelast_last; discriminate).
    transitivity (concat (removelast (m :: ms) ++ [last (m :: ms) []])).
    + rewrite concat_app. cbn [concat]. rewrite app_nil_r. apply Permutation_app_comm.
    + rewrite <- Hl. reflexivity.
Qed.

Lemma reported_error_has_every_diagnostic_witness :
  marker_errors (vis_item_impl tmpl_two_bad) <> [] /\
  Permutation (last (marker_errors (vis_item_impl tmpl_two_bad)) [] ++
               concat (removelast (marker_errors (vis_item_impl tmpl_two_bad))))
              (concat (marker_errors (vis_item_impl tmpl_two_bad))).
Proof.
  apply (reported_error_has_every_diagnostic tmpl_two_bad "Tuple"%string (tuple_idents 2)).
  - discriminate.
  - vm_compute. reflexivity.
Defined.

(** A count of zero produces no implementation and no error, whatever the
    template's trait and markers (its self type being a bare identifier);
    a template without a trait fails for every positive count that parses
    as a [usize] with the missing-trait diagnostic, before any of its
    markers is reported. *)
Theorem count_zero_and_missing_trait (t : ItemImpl) (ph : Ident) :
  extract_tuple_placeholder_ident t = Ok ph ->
  (forall c, lit_value c = 0 -> impl_for_tuples_impl (Semi t) c = Ok []) /\
  (impl_trait t = None -> forall c, 0 < lit_value c ->
     (N.of_nat (lit_value c) <= usize_max)%N ->
     impl_for_tuples_impl (Semi t) c = Err (error_new (impl_span t) missing_trait_msg)).
Proof.
  intros Hx. split.
  - intros c H0. unfold impl_for_tuples_impl, base10_parse_usize. rewrite H0.
    cbn [N.of_nat bind]. change (N.leb 0 usize_max) with true. cbn [bind seq map].
    unfold semi_automatic_impl, semi_automatic_run. rewrite Hx. reflexivity.
  - intros Hn c Hpos Hb. unfold impl_for_tuples_impl, base10_parse_usize.
    rewrite (proj2 (N.leb_le _ _) Hb). cbn [bind].
    unfold semi_automatic_impl, semi_automatic_run. rewrite Hx.
    destruct (lit_value c) as [|n]; [lia|].
    change (map generate_tuple_element_ident (seq 0 (S n))) with (tuple_idents (S n)).
    rewrite arities_tuple_idents. cbn [seq filter Nat.eqb negb try_for_each_arity firstn].
    rewrite (proj1 (generate_implementation_cases t ph []) Hn). reflexivity.
Qed.

Lemma count_zero_and_missing_trait_witness :
  impl_for_tuples_impl (Semi tmpl_no_trait) (count_lit 0) = Ok [] /\
  impl_for_tuples_impl (Semi tmpl_no_trait) (count_lit 3) = Err (error_new (impl_span tmpl_no_trait) missing_trait_msg).
Proof.
  destruct (count_zero_and_missing_trait tmpl_no_trait "Tuple"%string) as [H0 H1].
  - reflexivity.
  - split.
    + apply H0. reflexivity.
    + apply H1; [reflexivity|cbn; lia|vm_compute; discriminate].
Defined.

(** On success, the implementations come in ascending arity order
    [0, 2, 3, ..., n-1]: the one for arity [i] is the implementation
    generated for [TupleElement0 .. TupleElement(i-1)], for the tuple type
    of exactly these identifiers. *)
Theorem emitted_impls_in_order (t : ItemImpl) (c : LitInt) (l : list ItemImpl) :
  impl_for_tuples_impl (Semi t) c = Ok l ->
  exists ph, extract_tuple_placeholder_ident t = Ok ph /\
    Forall2 (fun it i => generate_implementation t ph (tuple_idents i) = Ok it /\
                         self_ty it = tuple_type (tuple_idents i))
      l (filter (fun i => negb (Nat.eqb i 1)) (seq 0 (lit_value c))).
Proof.
  intros H. destruct (emitted_impls_spec t c l H) as [ph [Hx Hf]].
  exists ph. split; [exact Hx|].
  refine (Forall2_impl _ _ Hf). intros it i Hi. split; [exact Hi|].
  destruct (generate_implementation_generics _ _ _ _ Hi) as [tr [_ [_ [_ Hs]]]]. exact Hs.
Qed.

Lemma emitted_impls_in_order_witness :
  exists ph, extract_tuple_placeholder_ident tmpl_return_type = Ok ph /\
    Forall2 (fun it i => generate_implementation tmpl_return_type ph (tuple_idents i) = Ok it /\
                         self_ty it = tuple_type (tuple_idents i))
      c9_output (filter (fun i => negb (Nat.eqb i 1)) (seq 0 (lit_value (count_lit 4)))).
Proof.
  apply (emitted_impls_in_order tmpl_return_type (count_lit 4) c9_output).
  vm_compute. reflexivity.
Defined.

(** The tuple element identifiers [TupleElement0 .. TupleElement(n-1)] are
    pairwise distinct (so [TupleElement1] and [TupleElement10] never
    clash). *)
Theorem tuple_element_idents_distinct (a b : nat) :
  a <> b -> generate_tuple_element_ident a <> generate_tuple_element_ident b.
Proof. intros H E. apply H, generate_tuple_element_ident_inj, E. Qed.

Lemma tuple_element_idents_distinct_witness :
  generate_tuple_element_ident 1 <> generate_tuple_element_ident 10.
Proof. apply (tuple_element_idents_distinct 1 10). discriminate. Defined.

(** Raising the count, up to a count that parses as a [usize], keeps the
    outcome of the smaller count: its implementations are a prefix of those
    of the larger count, and an error of the smaller count is also the
    error of the larger one. *)
Theorem count_monotone (t : ItemImpl) (m n : LitInt) :
  lit_value m <= lit_value n ->
  (N.of_nat (lit_value n) <= usize_max)%N ->
  (forall ln, impl_for_tuples_impl (Semi t) n = Ok ln ->
     exists lm rest, impl_for_tuples_impl (Semi t) m = Ok lm /\ ln = lm ++ rest) /\
  (forall e, impl_for_tuples_impl (Semi t) m = Err e -> impl_for_tuples_impl (Semi t) n = Err e).
Proof.
  intros Hmn Hn.
  assert (Hm : (N.of_nat (lit_value m) <= usize_max)%N).
  { apply N.le_trans with (N.of_nat (lit_value n)); [|exact Hn]. lia. }
  unfold impl_for_tuples_impl, base10_parse_usize.
  rewrite (proj2 (N.leb_le _ _) Hm), (proj2 (N.leb_le _ _) Hn). cbn [bind].
  revert Hmn. clear Hm Hn. generalize (lit_value n) as n'. generalize (lit_value m) as m'.
  clear m n. intros m n Hmn.
  unfold semi_automatic_impl, semi_automatic_run.
  change (map generate_tuple_element_ident (seq 0 m)) with (tuple_idents m).
  change (map generate_tuple_element_ident (seq 0 n)) with (tuple_idents n).
  destruct (extract_tuple_placeholder_ident t) as [ph|e0].
  2:{ split; [discriminate|]. intros e H. exact H. }
  rewrite !arities_tuple_idents.
  replace (seq 0 n) with (seq 0 m ++ seq m (n - m))
    by (rewrite <- seq_app; f_equal; lia).
  rewrite filter_app.
  set (is1 := filter (fun i => negb (Nat.eqb i 1)) (seq 0 m)).
  set (is2 := filter (fun i => negb (Nat.eqb i 1)) (seq m (n - m))).
  assert (Hext : try_for_each_arity t ph (tuple_idents n) is1 [] =
                 try_for_each_arity t ph (tuple_idents m) is1 []).
  { apply try_for_each_arity_ext. intros i Hi.
    unfold is1 in Hi. rewrite filter_In, in_seq in Hi.
    rewrite !firstn_tuple_idents by lia. reflexivity. }
  rewrite try_for_each_arity_app, Hext.
  destruct (try_for_each_arity t ph (tuple_idents m) is1 []) as [a1 [r1|e1]] eqn:E1;
    cbn [snd]; split.
  - intros ln H. exists r1.
    destruct (try_for_each_arity t ph (tuple_idents n) is2 r1) as [a2 o2] eqn:E2.
    cbn [snd] in H. subst o2.
    destruct (try_for_each_arity_ok2 _ _ _ _ _ _ _ E2) as [rs [Hrs _]].
    exists rs. split; [reflexivity|exact Hrs].
  - intros e H. discriminate H.
  - intros ln H. discriminate H.
  - intros e H. exact H.
Qed.

Lemma count_monotone_witness :
  (forall ln, impl_for_tuples_impl (Semi tmpl_return_type) (count_lit 4) = Ok ln ->
     exists lm rest, impl_for_tuples_impl (Semi tmpl_return_type) (count_lit 3) = Ok lm /\ ln = lm ++ rest) /\
  (forall e, impl_for_tuples_impl (Semi tmpl_return_type) (count_lit 3) = Err e ->
     impl_for_tuples_impl (Semi tmpl_return_type) (count_lit 4) = Err e).
Proof.
  apply (count_monotone tmpl_return_type (count_lit 3) (count_lit 4)).
  - cbn. lia.
  - vm_compute. discriminate.
Defined.

(** If the template declares each of its type parameters once, every
    generated implementation does too: no type parameter is declared
    twice. *)
Theorem emitted_generics_nodup (t : ItemImpl) (c : LitInt) (l : list ItemImpl) :
  impl_for_tuples_impl (Semi t) c = Ok l ->
  NoDup (type_params (impl_generics t)) ->
  Forall (fun it => NoDup (type_params (impl_generics it))) l.
Proof.
  intros H Hnd. destruct (emitted_impls_spec t c l H) as [ph [_ Hf]].
  assert (Hall : forall l0 is0,
    Forall2 (fun it i => generate_implementation t ph (tuple_idents i) = Ok it) l0 is0 ->
    Forall (fun it => NoDup (type_params (impl_generics it))) l0).
  { intros l0 is0 H0. induction H0 as [|it i l1 is1 Hi Hl IH]; constructor; [|exact IH].
    destruct (generate_implementation_generics _ _ _ _ Hi) as [tr [_ [_ [Hg _]]]].
    rewrite Hg. apply add_generics_nodup; [apply tuple_idents_nodup|].
    rewrite to_generics_type_params. exact Hnd. }
  exact (Hall _ _ Hf).
Qed.

Lemma emitted_generics_nodup_witness :
  Forall (fun it => NoDup (type_params (impl_generics it))) c9_output.
Proof.
  apply (emitted_generics_nodup tmpl_return_type (count_lit 4) c9_output).
  - vm_compute. reflexivity.
  - vm_compute. constructor.
Defined.


